(** * FileSystemStorageAdapter: the LevelDB/FS storage adapter

    A shallow embedding of [lib/storage/adapters/file-system.js] and the
    properties of its operations.  The adapter keeps metadata records as JSON
    text in a LevelDB store ([contracts.db], inside the storage directory)
    and shard payloads as files of the same directory.

    Layout of the development:
    - [JSON]: the values [JSON.parse] produces, [JSON.stringify], [JSON.parse];
    - [Path]: [path.join] on a directory and a plain entry name;
    - [FileSystemStorageAdapter]: the collaborators ([_db], [_fs]) as a
      world that is threaded through every operation, and the operations
      [_get], [_peek], [_put], [_del], [_size], [_open], [_close];
    - the properties. *)

From Stdlib Require Import ZArith String Ascii Decimal DecimalString DecimalN.
From stdpp Require Import gmap strings list fin_maps.

Set Warnings "-register-all".
Open Scope string_scope.

(* ===================================================================== *)
(** ** JSON text *)
(* ===================================================================== *)

Module JSON.

(** The values of JSON text.  Numbers are restricted to integers (the
    records of the adapter hold hashes, nested records and integer
    counters; fractions and exponents are outside the model).  An object
    keeps its properties in insertion order, which is the order
    [JSON.stringify] writes them in. *)
Inductive value : Type :=
| VNull
| VBool (b : bool)
| VNum (n : Z)
| VStr (s : string)
| VArr (elems : list value)
| VObj (props : list (string * value)).

Definition quote : ascii := "034"%char.
Definition backslash : ascii := "092"%char.

(** *** Property access on a list of properties *)

(** [o[name]]: the value of property [name], if the object has it. *)
Fixpoint get_prop {A : Type} (o : list (string * A)) (name : string) : option A :=
  match o with
  | [] => None
  | (k, v) :: rest => if String.eqb k name then Some v else get_prop rest name
  end.

(** [o[name] = x]: an existing property keeps its position, a new one is
    appended. *)
Fixpoint set_prop {A : Type} (o : list (string * A)) (name : string) (x : A)
  : list (string * A) :=
  match o with
  | [] => [(name, x)]
  | (k, v) :: rest =>
      if String.eqb k name then (k, x) :: rest else (k, v) :: set_prop rest name x
  end.

(** *** JSON.stringify *)

Definition hex_digit (n : N) : ascii :=
  match n with
  | 0 => "0" | 1 => "1" | 2 => "2" | 3 => "3" | 4 => "4" | 5 => "5"
  | 6 => "6" | 7 => "7" | 8 => "8" | 9 => "9" | 10 => "a" | 11 => "b"
  | 12 => "c" | 13 => "d" | 14 => "e" | _ => "f"
  end%N%char.

(** QuoteJSONString, per character: the quote and the backslash are escaped,
    control characters get their short escape or [\u00XX], everything else
    is copied. *)
Definition escape_char (c : ascii) : string :=
  let n := N_of_ascii c in
  if Ascii.eqb c quote then String backslash (String quote EmptyString)
  else if Ascii.eqb c backslash then String backslash (String backslash EmptyString)
  else if (n =? 8)%N then String backslash "b"
  else if (n =? 9)%N then String backslash "t"
  else if (n =? 10)%N then String backslash "n"
  else if (n =? 12)%N then String backslash "f"
  else if (n =? 13)%N then String backslash "r"
  else if (n <? 32)%N then
    String backslash (String "u" (String "0" (String "0"
      (String (hex_digit (n / 16)) (String (hex_digit (n mod 16)) EmptyString)))))
  else String c EmptyString.

Fixpoint escape (s : string) : string :=
  match s with
  | EmptyString => EmptyString
  | String c r => escape_char c +:+ escape r
  end.

Definition stringify_string (s : string) : string :=
  String quote (escape s +:+ String quote EmptyString).

(** Decimal digits, with a sign for a negative number. *)
Definition stringify_number (n : Z) : string :=
  (if (n <? 0)%Z then "-" else EmptyString)
  +:+ NilEmpty.string_of_uint (N.to_uint (Z.abs_N n)).

(** [parts.join(',')] *)
Fixpoint join_comma (parts : list string) : string :=
  match parts with
  | [] => EmptyString
  | [x] => x
  | x :: rest => x +:+ "," +:+ join_comma rest
  end.

Fixpoint stringify_value (v : value) : string :=
  match v with
  | VNull => "null"
  | VBool true => "true"
  | VBool false => "false"
  | VNum n => stringify_number n
  | VStr s => stringify_string s
  | VArr elems => "[" +:+ join_comma (map stringify_value elems) +:+ "]"
  | VObj props =>
      "{" +:+ join_comma (map (fun '(k, x) => stringify_string k +:+ ":" +:+ stringify_value x)
                             props) +:+ "}"
  end.

Definition stringify : value -> string := stringify_value.

(** *** JSON.parse *)

Definition is_ws (c : ascii) : bool :=
  let n := N_of_ascii c in
  (n =? 32)%N || (n =? 9)%N || (n =? 10)%N || (n =? 13)%N.

Fixpoint skip_ws (s : string) : string :=
  match s with
  | String c r => if is_ws c then skip_ws r else s
  | EmptyString => s
  end.

(** [expect lit s]: [s] without its prefix [lit]. *)
Fixpoint expect (lit s : string) : option string :=
  match lit, s with
  | EmptyString, _ => Some s
  | String a lit', String b s' => if Ascii.eqb a b then expect lit' s' else None
  | String _ _, EmptyString => None
  end.

Definition hex_value (c : ascii) : option N :=
  let n := N_of_ascii c in
  if (48 <=? n)%N && (n <=? 57)%N then Some (n - 48)%N
  else if (97 <=? n)%N && (n <=? 102)%N then Some (n - 87)%N
  else if (65 <=? n)%N && (n <=? 70)%N then Some (n - 55)%N
  else None.

(** The character an escape sequence [\e] stands for ([\uXXXX] apart). *)
Definition unescape (e : ascii) : option ascii :=
  if Ascii.eqb e quote then Some quote
  else if Ascii.eqb e backslash then Some backslash
  else match e with
       | "/" => Some "/"
       | "b" => Some "008"
       | "t" => Some "009"
       | "n" => Some "010"
       | "f" => Some "012"
       | "r" => Some "013"
       | _ => None
       end%char.

(** The characters of a string literal, after its opening quote, up to the
    closing quote.  [\uXXXX] is read for code points below 256, the
    characters a [string] of this model has. *)
Fixpoint parse_chars (s : string) : option (string * string) :=
  match s with
  | EmptyString => None
  | String c r =>
      if Ascii.eqb c quote then Some (EmptyString, r)
      else if Ascii.eqb c backslash then
        match r with
        | String "u" (String h1 (String h2 (String h3 (String h4 r')))) =>
            match hex_value h1, hex_value h2, hex_value h3, hex_value h4 with
            | Some 0%N, Some 0%N, Some a, Some b =>
                match parse_chars r' with
                | Some (str, rest) => Some (String (ascii_of_N (16 * a + b)) str, rest)
                | None => None
                end
            | _, _, _, _ => None
            end
        | String e r' =>
            match unescape e, parse_chars r' with
            | Some c', Some (str, rest) => Some (String c' str, rest)
            | _, _ => None
            end
        | EmptyString => None
        end
      else if (N_of_ascii c <? 32)%N then None
      else
        match parse_chars r with
        | Some (str, rest) => Some (String c str, rest)
        | None => None
        end
  end.

Definition is_digit (c : ascii) : bool :=
  let n := N_of_ascii c in (48 <=? n)%N && (n <=? 57)%N.

(** The longest prefix of digits, and what follows it. *)
Fixpoint span_digits (s : string) : string * string :=
  match s with
  | String c r =>
      if is_digit c then let (ds, rest) := span_digits r in (String c ds, rest)
      else (EmptyString, s)
  | EmptyString => (EmptyString, EmptyString)
  end.

(** Does a fraction or an exponent follow? *)
Definition starts_fraction (s : string) : bool :=
  match s with
  | String c _ => Ascii.eqb c "." || Ascii.eqb c "e" || Ascii.eqb c "E"
  | EmptyString => false
  end%char.

(** [0] or a digit sequence without a leading zero; with a fraction or an
    exponent after it the number is not an integer of this model. *)
Definition parse_nat (s : string) : option (N * string) :=
  let (ds, rest) := span_digits s in
  match ds with
  | EmptyString => None
  | String "0" (String _ _) => None
  | _ =>
      if starts_fraction rest then None
      else
        match NilEmpty.uint_of_string ds with
        | Some d => Some (N.of_uint d, rest)
        | None => None
        end
  end%char.

Definition parse_number (s : string) : option (Z * string) :=
  match s with
  | String "-" r =>
      match parse_nat r with
      | Some (n, rest) => Some (Z.opp (Z.of_N n), rest)
      | None => None
      end
  | _ =>
      match parse_nat s with
      | Some (n, rest) => Some (Z.of_N n, rest)
      | None => None
      end
  end%char.

(** [s] after character [c], when [s] starts with it. *)
Definition starts_with (c : ascii) (s : string) : option string :=
  match s with
  | String c' r => if Ascii.eqb c' c then Some r else None
  | EmptyString => None
  end.

(** A later duplicate of a key overwrites the value of the earlier one. *)
Definition build_object (members : list (string * value)) : list (string * value) :=
  fold_left (fun o kv => set_prop o (fst kv) (snd kv)) members [].

(** Recursive descent; [fuel] bounds the number of nested calls. *)
Fixpoint parse_value (fuel : nat) (s : string) : option (value * string) :=
  match fuel with
  | O => None
  | S fuel =>
      match skip_ws s with
      | EmptyString => None
      | String c r =>
          if Ascii.eqb c quote then
            match parse_chars r with
            | Some (str, rest) => Some (VStr str, rest)
            | None => None
            end
          else if Ascii.eqb c "n" then
            match expect "ull" r with
            | Some rest => Some (VNull, rest)
            | None => None
            end
          else if Ascii.eqb c "t" then
            match expect "rue" r with
            | Some rest => Some (VBool true, rest)
            | None => None
            end
          else if Ascii.eqb c "f" then
            match expect "alse" r with
            | Some rest => Some (VBool false, rest)
            | None => None
            end
          else if Ascii.eqb c "[" then
            match starts_with "]" (skip_ws r) with
            | Some rest => Some (VArr [], rest)
            | None =>
                match parse_elements fuel r with
                | Some (elems, rest) => Some (VArr elems, rest)
                | None => None
                end
            end
          else if Ascii.eqb c "{" then
            match starts_with "}" (skip_ws r) with
            | Some rest => Some (VObj [], rest)
            | None =>
                match parse_members fuel r with
                | Some (members, rest) => Some (VObj (build_object members), rest)
                | None => None
                end
            end
          else
            match parse_number (String c r) with
            | Some (n, rest) => Some (VNum n, rest)
            | None => None
            end
      end%char
  end
with parse_elements (fuel : nat) (s : string) : option (list value * string) :=
  match fuel with
  | O => None
  | S fuel =>
      match parse_value fuel s with
      | Some (v, r) =>
          match starts_with "," (skip_ws r) with
          | Some r' =>
              match parse_elements fuel r' with
              | Some (vs, rest) => Some (v :: vs, rest)
              | None => None
              end
          | None =>
              match starts_with "]" (skip_ws r) with
              | Some rest => Some ([v], rest)
              | None => None
              end
          end%char
      | None => None
      end
  end
with parse_members (fuel : nat) (s : string) : option (list (string * value) * string) :=
  match fuel with
  | O => None
  | S fuel =>
      match starts_with quote (skip_ws s) with
      | Some r =>
          match parse_chars r with
          | Some (k, r1) =>
              match starts_with ":" (skip_ws r1) with
              | Some r2 =>
                  match parse_value fuel r2 with
                  | Some (v, r3) =>
                      match starts_with "," (skip_ws r3) with
                      | Some r4 =>
                          match parse_members fuel r4 with
                          | Some (ms, rest) => Some ((k, v) :: ms, rest)
                          | None => None
                          end
                      | None =>
                          match starts_with "}" (skip_ws r3) with
                          | Some rest => Some ([(k, v)], rest)
                          | None => None
                          end
                      end%char
                  | None => None
                  end
              | None => None
              end%char
          | None => None
          end
      | None => None
      end
  end.

(** [JSON.parse text].  On text without a fraction, an exponent or a
    [\uXXXX] escape from 256 on, [None] stands for the [SyntaxError] that
    [JSON.parse] throws; text with one of those can be JSON that this model
    does not read, and [None] says nothing about it. *)
Definition parse (text : string) : option value :=
  match parse_value (S (String.length text)) text with
  | Some (v, rest) =>
      match skip_ws rest with
      | EmptyString => Some v
      | String _ _ => None
      end
  | None => None
  end.

(** JSON text written with apostrophes in place of the double quotes. *)
Fixpoint text (s : string) : string :=
  match s with
  | EmptyString => EmptyString
  | String c r => String (if Ascii.eqb c "'"%char then quote else c) (text r)
  end.

End JSON.

(* ===================================================================== *)
(** ** Paths *)
(* ===================================================================== *)

Module Path.

(** [path.join(dir, name)] for a directory (no separator at its end) and
    the plain name of an entry in it (not empty, no separator, not [.] or
    [..]), where [path.join] has nothing to normalise.  For other names the
    path of the model is an abstract name of the path of [path.join]. *)
Definition join (dir name : string) : string := dir +:+ "/" +:+ name.

Fixpoint has_separator (s : string) : bool :=
  match s with
  | EmptyString => false
  | String c r => Ascii.eqb c "/"%char || has_separator r
  end.

(** The name under which [path] is listed in directory [dir]: defined when
    [path] is an entry of [dir] itself, not of a subdirectory. *)
Definition entry_name (dir path : string) : option string :=
  match JSON.expect (dir +:+ "/") path with
  | Some EmptyString => None
  | Some name => if has_separator name then None else Some name
  | None => None
  end.

End Path.

(* ===================================================================== *)
(** ** The adapter *)
(* ===================================================================== *)

Module FileSystemStorageAdapter.

Import JSON.

(** A JavaScript [Error]. *)
Inductive error : Type := Error (message : string).

(** What [fs.createWriteStream] and [fs.createReadStream] return. *)
Inductive stream : Type :=
| WriteStream (path : string)
| ReadStream (path : string).

(** What a property of an in-memory record holds: JSON data, or the payload
    of a shard (a [Buffer], or a stream attached by [_get]). *)
Inductive slot : Type :=
| Json (v : value)
| Buffer (data : string)
| Stream (s : stream).

(** An object in memory.  [JSON.parse] can produce an array, which takes
    named properties like any object. *)
Inductive object : Type :=
| Plain (props : list (string * slot))
| Array (elems : list value) (props : list (string * slot)).

Definition properties (o : object) : list (string * slot) :=
  match o with Plain props => props | Array _ props => props end.

(** [o[name] = x] *)
Definition assign (o : object) (name : string) (x : slot) : object :=
  match o with
  | Plain props => Plain (set_prop props name x)
  | Array elems props => Array elems (set_prop props name x)
  end.

(** The object a parsed value is, when it is one: [null] and the primitives
    are not, and assigning a property to them throws in strict mode. *)
Definition to_object (v : value) : option object :=
  match v with
  | VObj props => Some (Plain (map (fun kv => (fst kv, Json (snd kv))) props))
  | VArr elems => Some (Array elems [])
  | VNull | VBool _ | VNum _ | VStr _ => None
  end.

Definition byte_values (data : string) : list value :=
  map (fun c => VNum (Z.of_N (N_of_ascii c))) (list_ascii_of_string data).

(** The JSON value of a property: a [Buffer] has a [toJSON]; the
    serialisation of a live stream object is outside the model. *)
Definition slot_value (x : slot) : option value :=
  match x with
  | Json v => Some v
  | Buffer data => Some (VObj [("type", VStr "Buffer"); ("data", VArr (byte_values data))])
  | Stream _ => None
  end.

Fixpoint props_value (props : list (string * slot)) : option (list (string * value)) :=
  match props with
  | [] => Some []
  | (k, x) :: rest =>
      match slot_value x, props_value rest with
      | Some v, Some vs => Some ((k, v) :: vs)
      | _, _ => None
      end
  end.

(** [JSON.stringify(o)]; the named properties of an array are not written. *)
Definition JSON_stringify (o : object) : option string :=
  match o with
  | Plain props =>
      match props_value props with
      | Some vs => Some (stringify (VObj vs))
      | None => None
      end
  | Array elems _ => Some (stringify (VArr elems))
  end.

Definition JSON_parse : string -> option value := parse.

(** An entry of the storage directory. *)
Inductive node : Type :=
| File (data : string)
| Directory (size : Z).

(** [stat.size] *)
Definition node_size (n : node) : Z :=
  match n with
  | File data => Z.of_nat (String.length data)
  | Directory size => size
  end.

(** The calls the adapter makes on its collaborators. *)
Inductive call : Type :=
| db_get (key : string) (fillCache : bool)
| db_put (key value : string) (sync : bool)
| db_del (key : string)
| db_approximateSize (start end_ : string)
| db_open
| db_close
| fs_stat (path : string)
| fs_createWriteStream (path : string)
| fs_createReadStream (path : string)
| fs_unlink (path : string)
| fs_readdir (path : string)
| fs_statSync (path : string).

Definition loc := nat.

(** The adapter instance ([_path], [_isOpen]), its collaborators ([_db] with
    the status of its handle, [_fs]), the objects of the callers, and the
    environment: which calls fail, and what the store estimates for a range
    of keys.  [calls] is the history of the calls made, oldest first. *)
Record world : Type := World {
  _path : string;
  _isOpen : bool;
  _db : gmap string string;
  db_isOpen : bool;
  _fs : gmap string node;
  heap : gmap loc object;
  failing : call -> option error;
  estimate : string -> string -> Z;
  calls : list call
}.

Definition with_isOpen (b : bool) (w : world) : world :=
  World (_path w) b (_db w) (db_isOpen w) (_fs w) (heap w) (failing w) (estimate w) (calls w).
Definition with_db (d : gmap string string) (w : world) : world :=
  World (_path w) (_isOpen w) d (db_isOpen w) (_fs w) (heap w) (failing w) (estimate w) (calls w).
Definition with_db_isOpen (b : bool) (w : world) : world :=
  World (_path w) (_isOpen w) (_db w) b (_fs w) (heap w) (failing w) (estimate w) (calls w).
Definition with_fs (f : gmap string node) (w : world) : world :=
  World (_path w) (_isOpen w) (_db w) (db_isOpen w) f (heap w) (failing w) (estimate w) (calls w).
Definition with_heap (h : gmap loc object) (w : world) : world :=
  World (_path w) (_isOpen w) (_db w) (db_isOpen w) (_fs w) h (failing w) (estimate w) (calls w).
Definition with_calls (l : list call) (w : world) : world :=
  World (_path w) (_isOpen w) (_db w) (db_isOpen w) (_fs w) (heap w) (failing w) (estimate w) l.

(** How an operation completes: [callback(null, a)], [callback(err)], or an
    exception that leaves the operation without calling back. *)
Inductive completion (A : Type) : Type :=
| Done (a : A)
| Failed (err : error)
| Thrown (err : error).
Arguments Done {A} a.
Arguments Failed {A} err.
Arguments Thrown {A} err.

Definition op (A : Type) : Type := world -> completion A * world.

Definition ret {A : Type} (a : A) : op A := fun w => (Done a, w).

Definition bind {A B : Type} (m : op A) (k : A -> op B) : op B :=
  fun w =>
    match m w with
    | (Done a, w') => k a w'
    | (Failed e, w') => (Failed e, w')
    | (Thrown e, w') => (Thrown e, w')
    end.

Definition throw {A : Type} (e : error) : op A := fun w => (Thrown e, w).

Declare Scope op_scope.
Delimit Scope op_scope with op.
Notation "x <- m ;; k" := (bind m (fun x => k))
  (at level 100, m at next level, right associativity) : op_scope.
Notation "m ;; k" := (bind m (fun _ => k))
  (at level 100, right associativity) : op_scope.
Open Scope op_scope.

(** *** The collaborators *)

(** Every call is entered in the history. *)
Definition called (c : call) : op unit :=
  fun w => (Done tt, with_calls (calls w ++ [c]) w).

(** A call the environment makes fail reports its error and does nothing. *)
Definition unless_failing (c : call) : op unit :=
  fun w => match failing w c with
           | Some e => (Failed e, w)
           | None => (Done tt, w)
           end.

Definition NotFoundError (key : string) : error :=
  Error ("Key not found in database [" +:+ key +:+ "]").
Definition ENOENT (path : string) : error :=
  Error ("ENOENT: no such file or directory, " +:+ path).
Definition EISDIR (path : string) : error :=
  Error ("EISDIR: illegal operation on a directory, " +:+ path).
Definition TypeError (message : string) : error := Error ("TypeError: " +:+ message).
Definition SyntaxError (message : string) : error := Error ("SyntaxError: " +:+ message).

(** [this._db.get(key, { fillCache: fillCache }, callback)] *)
Definition db_get_ (key : string) (fillCache : bool) : op string :=
  called (db_get key fillCache) ;;
  unless_failing (db_get key fillCache) ;;
  fun w => match _db w !! key with
           | Some value => (Done value, w)
           | None => (Failed (NotFoundError key), w)
           end.

(** [this._db.put(key, value, { sync: sync }, callback)] *)
Definition db_put_ (key value : string) (sync : bool) : op unit :=
  called (db_put key value sync) ;;
  unless_failing (db_put key value sync) ;;
  fun w => (Done tt, with_db (<[key := value]> (_db w)) w).

(** [this._db.del(key, callback)]: deleting an absent key is no error. *)
Definition db_del_ (key : string) : op unit :=
  called (db_del key) ;;
  unless_failing (db_del key) ;;
  fun w => (Done tt, with_db (delete key (_db w)) w).

(** [this._db.db.approximateSize(start, end, callback)] *)
Definition db_approximateSize_ (start end_ : string) : op Z :=
  called (db_approximateSize start end_) ;;
  unless_failing (db_approximateSize start end_) ;;
  fun w => (Done (estimate w start end_), w).

(** [this._db.open(callback)] *)
Definition db_open_ : op unit :=
  called db_open ;;
  unless_failing db_open ;;
  fun w => (Done tt, with_db_isOpen true w).

(** [this._db.close(callback)] *)
Definition db_close_ : op unit :=
  called db_close ;;
  unless_failing db_close ;;
  fun w => (Done tt, with_db_isOpen false w).

(** [this._fs.stat(path, callback)]: the error the callback receives, if
    any: the one the environment makes the call fail with, whatever exists
    at [path], or the one for nothing existing there. *)
Definition fs_stat_ (path : string) : op (option error) :=
  called (fs_stat path) ;;
  fun w => match failing w (fs_stat path) with
           | Some e => (Done (Some e), w)
           | None =>
               match _fs w !! path with
               | Some _ => (Done None, w)
               | None => (Done (Some (ENOENT path)), w)
               end
           end.

(** [this._fs.createWriteStream(path)]: the stream is handed out at once;
    it opens its file later, after the callback of the operation, and it is
    then that the file is created, or emptied when it exists.  The directory
    is as before when the operation calls back. *)
Definition fs_createWriteStream_ (path : string) : op stream :=
  called (fs_createWriteStream path) ;;
  ret (WriteStream path).

(** [this._fs.createReadStream(path)] *)
Definition fs_createReadStream_ (path : string) : op stream :=
  called (fs_createReadStream path) ;;
  ret (ReadStream path).

(** [this._fs.unlink(path, callback)] *)
Definition fs_unlink_ (path : string) : op unit :=
  called (fs_unlink path) ;;
  unless_failing (fs_unlink path) ;;
  fun w => match _fs w !! path with
           | Some (File _) => (Done tt, with_fs (delete path (_fs w)) w)
           | Some (Directory _) => (Failed (EISDIR path), w)
           | None => (Failed (ENOENT path), w)
           end.

(** [this._fs.readdir(path, callback)]: the names of the entries of [path]. *)
Definition fs_readdir_ (path : string) : op (list string) :=
  called (fs_readdir path) ;;
  unless_failing (fs_readdir path) ;;
  fun w => (Done (omap (Path.entry_name path) (map fst (map_to_list (_fs w)))), w).

(** [this._fs.statSync(path)]: throws when nothing exists at [path].  The
    directory is taken to be as [fs.readdir] found it: no entry goes away in
    between, and every entry can be looked at. *)
Definition fs_statSync_ (path : string) : op node :=
  called (fs_statSync path) ;;
  fun w => match _fs w !! path with
           | Some n => (Done n, w)
           | None => (Thrown (ENOENT path), w)
           end.

(** *** The operations *)

Definition SIZE_START_KEY : string := "0".
Definition SIZE_END_KEY : string := "z".
Definition MAX_OPEN_FILES : Z := 1000.

Definition self_path : op string := fun w => (Done (_path w), w).
Definition self_isOpen : op bool := fun w => (Done (_isOpen w), w).
Definition set_self_isOpen (b : bool) : op unit := fun w => (Done tt, with_isOpen b w).

(** [JSON.parse(value)] in a callback: a [SyntaxError] is an exception.
    (For text with a fraction, an exponent or a [\u] escape, which [parse]
    does not read, the exception of the model need not be one of the code;
    the properties of the exception are stated for text without them.) *)
Definition parse_record (value : string) : op JSON.value :=
  match JSON_parse value with
  | Some result => ret result
  | None => throw (SyntaxError "Unexpected token in JSON")
  end.

(** [_peek(key, callback)] *)
Definition _peek (key : string) : op value :=
  value <- db_get_ key false ;;
  parse_record value.

(** [_get(key, callback)] *)
Definition _get (key : string) : op object :=
  value <- db_get_ key false ;;
  result <- parse_record value ;;
  root <- self_path ;;
  let pathToFile := Path.join root key in
  notExists <- fs_stat_ pathToFile ;;
  shard <- match notExists with
           | Some _ => fs_createWriteStream_ pathToFile
           | None => fs_createReadStream_ pathToFile
           end ;;
  match to_object result with
  | Some result => ret (assign result "shard" (Stream shard))
  | None => throw (TypeError "Cannot create property 'shard'")
  end.

(** [_put(key, item, callback)]: [item] is the caller's object, changed in
    place before it is serialised. *)
Definition _put (key : string) (item : loc) : op unit :=
  fun w =>
    match heap w !! item with
    | None => (Thrown (TypeError "Cannot set property 'shard' of undefined"), w)
    | Some o =>
        let o1 := assign o "shard" (Json VNull) in
        let o2 := assign o1 "fskey" (Json (VStr key)) in
        let w' := with_heap (<[item := o2]> (heap w)) w in
        match JSON_stringify o2 with
        | Some text => db_put_ key text true w'
        | None => (Thrown (TypeError "Converting a live stream to JSON"), w')
        end
    end.

(** [item.fskey] on what [_peek] delivers: [undefined] is [None]; reading a
    property of [null] throws. *)
Definition member (item : value) (name : string) : op (option value) :=
  match item with
  | VNull => throw (TypeError "Cannot read property of null")
  | VObj props => ret (get_prop props name)
  | VBool _ | VNum _ | VStr _ | VArr _ => ret None
  end.

(** ToBoolean *)
Definition truthy (v : option value) : bool :=
  match v with
  | None | Some VNull | Some (VBool false) | Some (VNum Z0) | Some (VStr EmptyString) => false
  | Some _ => true
  end.

(** [path.join(dir, name)] throws unless [name] is a string. *)
Definition path_join (dir : string) (name : value) : op string :=
  match name with
  | VStr name => ret (Path.join dir name)
  | _ => throw (TypeError "Path must be a string")
  end.

(** The second and third step of [_del]: [this._db.del(key, ...)] and, in
    its callback, [this._fs.unlink(path.join(this._path, fskey), ...)]. *)
Definition del_entry_then_file (key : string) (fskey : value) : op unit :=
  db_del_ key ;;
  root <- self_path ;;
  target <- path_join root fskey ;;
  fs_unlink_ target.

(** [_del(key, callback)]: the callback of [_peek] goes on whether or not it
    received an error. *)
Definition _del (key : string) : op unit :=
  fun w =>
    let fskey := VStr key in
    match _peek key w with
    | (Thrown e, w') => (Thrown e, w')
    | (Failed err, w') => del_entry_then_file key fskey w'
    | (Done item, w') =>
        (found <- member item "fskey" ;;
         let fskey := match found with
                      | Some v => if truthy found then v else fskey
                      | None => fskey
                      end in
         del_entry_then_file key fskey) w'
    end.

(** [_flush(callback)] *)
Definition _flush : op unit := ret tt.

(** [files.forEach((key) => { totalSize += statSync(join(_path, key)).size })] *)
Fixpoint sum_sizes (root : string) (files : list string) (totalSize : Z) : op Z :=
  match files with
  | [] => ret totalSize
  | key :: rest =>
      stat <- fs_statSync_ (Path.join root key) ;;
      sum_sizes root rest (totalSize + node_size stat)%Z
  end.

(** [_size(key, callback)]: the optional [key] is not used.  The callback
    receives [totalSize] and [contractDbSize], in this order. *)
Definition _size (key : option string) : op (Z * Z) :=
  contractDbSize <- db_approximateSize_ SIZE_START_KEY SIZE_END_KEY ;;
  root <- self_path ;;
  files <- fs_readdir_ root ;;
  totalSize <- sum_sizes root files 0%Z ;;
  ret (totalSize, contractDbSize).

(** [_open(callback)] *)
Definition _open : op unit :=
  isOpen <- self_isOpen ;;
  if negb isOpen then
    db_open_ ;;
    set_self_isOpen true
  else ret tt.

(** [_close(callback)] *)
Definition _close : op unit :=
  isOpen <- self_isOpen ;;
  if isOpen then
    db_close_ ;;
    set_self_isOpen false
  else ret tt.


End FileSystemStorageAdapter.

(* ===================================================================== *)
(** ** Vocabulary of the properties *)
(* ===================================================================== *)

Module Properties.

Import JSON FileSystemStorageAdapter.

(** The calls made between two worlds of one run. *)
Definition issued (w w' : world) : list call :=
  drop (length (calls w)) (calls w').

(** [db.del] is stubbed to fail, as in the unit test. *)
Definition del_fails (key : string) (e : error) : call -> option error :=
  fun c => match c with
           | db_del k => if String.eqb k key then Some e else None
           | _ => None
           end.

Definition put_fails (key : string) (e : error) : call -> option error :=
  fun c => match c with
           | db_put k _ _ => if String.eqb k key then Some e else None
           | _ => None
           end.

Definition open_fails (e : error) : call -> option error :=
  fun c => match c with db_open => Some e | _ => None end.

Definition nothing_fails : call -> option error := fun _ => None.

(** A storage directory [/data] that holds the store and nothing else; the
    caller owns one item, with a shard in a [Buffer]. *)
Definition fresh (failing : call -> option error) : world :=
  World "/data" true ∅ true
        {[ "/data/contracts.db" := Directory 4096 ]}
        {[ 1%nat := Plain [("hash", Json (VStr "abc")); ("shard", Buffer "test")] ]}
        failing (fun _ _ => 7168%Z) [].

(** The store of [fresh] holds a record for [a] whose [fskey] names another
    file, [b], which exists. *)
Definition aliased : world :=
  with_fs (<["/data/b" := File "payload"]> (_fs (fresh nothing_fails)))
    (with_db {[ "a" := text "{'hash':'a','shard':null,'fskey':'b'}" ]}
       (fresh nothing_fails)).

(** [fresh] after the shard of [abc] was uploaded. *)
Definition uploaded (failing : call -> option error) : world :=
  with_fs (<["/data/abc" := File "hello"]> (_fs (fresh failing)))
    (with_db {[ "abc" := text "{'hash':'abc','shard':null,'fskey':'abc'}" ]}
       (fresh failing)).

(** How an [fs.unlink] of [target], made in [w], has ended in [w']: with
    the error the environment makes it fail with; by removing the file; or
    with the error of [fs.unlink] for a directory, or for nothing, being
    there.  The directory changes in the second case only. *)
Definition unlinked (w : world) (target : string) (r : completion unit)
    (w' : world) : Prop :=
  match failing w (fs_unlink target), _fs w !! target with
  | Some e, _ => r = Failed e /\ _fs w' = _fs w
  | None, Some (File _) => r = Done tt /\ _fs w' = delete target (_fs w)
  | None, Some (Directory _) => r = Failed (EISDIR target) /\ _fs w' = _fs w
  | None, None => r = Failed (ENOENT target) /\ _fs w' = _fs w
  end.

(** The entries of the storage directory, by name. *)
Definition listed (w : world) : list (string * node) :=
  omap (fun '(path, n) => (fun name => (name, n)) <$> Path.entry_name (_path w) path)
       (map_to_list (_fs w)).

Definition bytes (entries : list (string * node)) : Z :=
  foldr (fun '(_, n) total => (node_size n + total)%Z) 0%Z entries.







(** The claim on [_put] followed by [_peek], as made: [_peek] delivers a
    record with [shard] empty, and every other property as the item had it
    when it was handed to [_put]. *)
Definition put_peek_keeps_non_shard (w : world) (key : string) (item : loc) : Prop :=
  forall o, heap w !! item = Some o ->
  exists props w',
    (_put key item ;; _peek key) w = (Done (VObj props), w') /\
    get_prop props "shard" = Some VNull /\
    forall name, name <> "shard" ->
      get_prop props name = get_prop (properties o) name ≫= slot_value.

(** No object of the value has two properties of one name. *)
Fixpoint distinct_keys (v : value) : bool :=
  match v with
  | VArr elems => forallb distinct_keys elems
  | VObj props =>
      bool_decide (NoDup (map fst props))
      && forallb (fun kv => distinct_keys (snd kv)) props
  | VNull | VBool _ | VNum _ | VStr _ => true
  end.

(** The nodes of a value, and the cells of its lists. *)
Fixpoint size (v : value) : nat :=
  match v with
  | VArr elems => S (list_sum (map (fun x => S (size x)) elems))
  | VObj props => S (list_sum (map (fun kv => S (size (snd kv))) props))
  | VNull | VBool _ | VNum _ | VStr _ => 1
  end.

(** The decimal digits of [JSON.stringify] for a natural number. *)
Definition digits := NilEmpty.string_of_uint.

(** Does a digit come first? *)
Definition starts_digit (s : string) : bool :=
  match s with String c _ => is_digit c | EmptyString => false end.

(** The first character of a serialised number. *)
Definition number_start (c : ascii) : bool := is_digit c || Ascii.eqb c "-".

(** The first character of a serialised value. *)
Definition value_start (c : ascii) : bool :=
  number_start c || Ascii.eqb c quote || Ascii.eqb c "n" || Ascii.eqb c "t"
  || Ascii.eqb c "f" || Ascii.eqb c "[" || Ascii.eqb c "{".

(** What may follow a value inside JSON text. *)
Definition follows_value (rest : string) : bool :=
  negb (starts_digit rest) && negb (starts_fraction rest).

(** The size of a list of elements, and of a list of properties. *)
Definition sizes (elems : list value) : nat :=
  list_sum (map (fun x => S (size x)) elems).

(** A property as [JSON.stringify] writes it. *)
Definition member_text (kv : string * value) : string :=
  let '(k, x) := kv in stringify_string k +:+ ":" +:+ stringify_value x.

Definition members_size (props : list (string * value)) : nat :=
  list_sum (map (fun kv => S (size (snd kv))) props).

(** A property that [JSON.stringify] can write and [JSON.parse] gives back. *)
Definition valid_slot (x : slot) : bool :=
  match slot_value x with
  | Some v => distinct_keys v
  | None => false
  end.

(** Modelled from the spec: the StorageItem of [lib/storage/item.js], which
    is not part of the sources at hand.  An item as a caller hands it to
    [_put] is a record whose properties have distinct names and, [shard]
    apart, hold metadata, that is JSON data. *)
Definition valid_item (o : object) : bool :=
  match o with
  | Plain props =>
      bool_decide (NoDup (map fst props))
      && forallb (fun kx => String.eqb (fst kx) "shard" || valid_slot (snd kx)) props
  | Array _ _ => false
  end.


End Properties.

(* ===================================================================== *)
(** ** Further stubs and worlds *)
(* ===================================================================== *)

Module Scenarios.

Import JSON FileSystemStorageAdapter Properties.

(** [db.close] is stubbed to fail, as in the unit test. *)
Definition close_fails (e : error) : call -> option error :=
  fun c => match c with db_close => Some e | _ => None end.

(** [db.get] is stubbed to fail, as in the unit test. *)
Definition get_fails (e : error) : call -> option error :=
  fun c => match c with db_get _ _ => Some e | _ => None end.

(** [fs.unlink] is stubbed to fail, as in the unit test. *)
Definition unlink_fails (e : error) : call -> option error :=
  fun c => match c with fs_unlink _ => Some e | _ => None end.

(** [db.db.approximateSize] is stubbed to fail, as in the unit test. *)
Definition approximateSize_fails (e : error) : call -> option error :=
  fun c => match c with db_approximateSize _ _ => Some e | _ => None end.

Definition readdir_fails (e : error) : call -> option error :=
  fun c => match c with fs_readdir _ => Some e | _ => None end.

(** The caller keeps an object it received under a reference of its own. *)
Definition hold (l : loc) (o : object) : op unit :=
  fun w => (Done tt, with_heap (<[l := o]> (heap w)) w).

(** [fs.stat] fails, whatever is there. *)
Definition stat_fails (e : error) : call -> option error :=
  fun c => match c with fs_stat _ => Some e | _ => None end.

(** Does [u] come first? *)
Definition starts_u (s : string) : bool :=
  match s with String c _ => Ascii.eqb c "u" | EmptyString => false end.

(** Text on which [JSON.parse] and its model agree: no digit is followed by
    a fraction or an exponent, and there is no [\u] escape. *)
Fixpoint plain_text (s : string) : bool :=
  match s with
  | EmptyString => true
  | String c r =>
      negb (is_digit c && starts_fraction r)
      && negb (Ascii.eqb c backslash && starts_u r)
      && plain_text r
  end.

(** [uploaded], with another text stored for [abc]. *)
Definition holding (value : string) : world :=
  with_db {[ "abc" := value ]} (uploaded nothing_fails).

End Scenarios.

Import JSON FileSystemStorageAdapter Properties Scenarios.

(* ===================================================================== *)
(** ** JSON.parse after JSON.stringify *)
(* ===================================================================== *)

#[local] Arguments String.append !_ _ / : simpl nomatch.

Lemma string_app_assoc (s1 s2 s3 : string) :
  (s1 +:+ s2) +:+ s3 = s1 +:+ (s2 +:+ s3).
Proof. induction s1 as [|c s1 IH]; simpl; [done|]. by rewrite IH. Qed.

Lemma string_app_nil_r (s : string) : s +:+ EmptyString = s.
Proof. induction s as [|c s IH]; simpl; [done|]. by rewrite IH. Qed.

Lemma string_length_app (s1 s2 : string) :
  String.length (s1 +:+ s2) = String.length s1 + String.length s2.
Proof. induction s1 as [|c s1 IH]; simpl; [done|]. by rewrite IH. Qed.

(** *** String literals *)

Lemma parse_chars_escape (s rest : string) :
  parse_chars (escape s +:+ String quote rest) = Some (s, rest).
Proof.
  induction s as [|c s IH]; [reflexivity|].
  cbn [escape]. rewrite string_app_assoc.
  destruct c as [[] [] [] [] [] [] [] []]; simpl; rewrite IH; reflexivity.
Qed.

(** *** Numbers *)

Lemma span_digits_digits (d : uint) (rest : string) :
  starts_digit rest = false ->
  span_digits (digits d +:+ rest) = (digits d, rest).
Proof.
  intros Hrest. induction d; simpl; try (rewrite IHd; reflexivity).
  destruct rest as [|c rest]; [done|]. simpl in *. by rewrite Hrest.
Qed.

Lemma nzhead_no_zero (d : uint) :
  match nzhead d with D0 _ => False | _ => True end.
Proof. induction d; simpl; done. Qed.

(** The decimal digits of a number have no leading zero. *)
Lemma to_uint_normal (n : N) :
  match N.to_uint n with
  | Nil => False
  | D0 d => d = Nil
  | _ => True
  end.
Proof.
  pose proof (DecimalN.Unsigned.to_of (N.to_uint n)) as H.
  rewrite DecimalN.Unsigned.of_to in H. rewrite H. unfold unorm.
  pose proof (nzhead_no_zero (N.to_uint n)) as Hz.
  destruct (nzhead (N.to_uint n)); done.
Qed.

Lemma parse_nat_digits (n : N) (rest : string) :
  starts_digit rest = false -> starts_fraction rest = false ->
  parse_nat (digits (N.to_uint n) +:+ rest) = Some (n, rest).
Proof.
  intros Hd Hf. unfold parse_nat. rewrite span_digits_digits by done.
  pose proof (to_uint_normal n) as Hn.
  pose proof (NilEmpty.usu (N.to_uint n)) as Hu.
  pose proof (DecimalN.Unsigned.of_to n) as Hof.
  fold digits in Hu.
  destruct (N.to_uint n) as [|d|d|d|d|d|d|d|d|d|d]; [done|..];
    try (cbn [digits NilEmpty.string_of_uint] in *; rewrite Hf, Hu, Hof; reflexivity).
  subst d. cbn. rewrite Hf. cbn in Hof. by rewrite Hof.
Qed.

Lemma digits_start (n : N) :
  exists c r, digits (N.to_uint n) = String c r /\ is_digit c = true.
Proof.
  pose proof (to_uint_normal n) as Hn.
  destruct (N.to_uint n); [done|..]; cbn; eauto.
Qed.

Lemma parse_number_stringify (n : Z) (rest : string) :
  starts_digit rest = false -> starts_fraction rest = false ->
  parse_number (stringify_number n +:+ rest) = Some (n, rest).
Proof.
  intros Hd Hf. unfold stringify_number. fold digits.
  destruct (n <? 0)%Z eqn:Hneg.
  - cbn [String.append]. unfold parse_number.
    rewrite parse_nat_digits by done. f_equal. f_equal. lia.
  - cbn [String.append].
    assert (Hp : parse_nat (digits (N.to_uint (Z.abs_N n)) +:+ rest)
                 = Some (Z.abs_N n, rest)) by (by apply parse_nat_digits).
    destruct (digits_start (Z.abs_N n)) as (c & r & Hc & Hdig).
    rewrite Hc in *. cbn [String.append] in *. unfold parse_number.
    destruct c as [[] [] [] [] [] [] [] []]; try discriminate Hdig;
      rewrite Hp; f_equal; f_equal; lia.
Qed.

Lemma stringify_number_start (n : Z) :
  exists c r, stringify_number n = String c r /\ number_start c = true.
Proof.
  unfold stringify_number. fold digits. destruct (n <? 0)%Z.
  - eexists _, _. split; [reflexivity|]. reflexivity.
  - destruct (digits_start (Z.abs_N n)) as (c & r & Hc & Hdig).
    exists c, r. split; [done|]. unfold number_start. by rewrite Hdig.
Qed.

(** *** Values *)

(** Induction on a value, with the hypothesis for every element and every
    property value. *)
Lemma value_ind_nested (P : value -> Prop) :
  P VNull -> (forall b, P (VBool b)) -> (forall n, P (VNum n)) ->
  (forall s, P (VStr s)) ->
  (forall elems, Forall P elems -> P (VArr elems)) ->
  (forall props, Forall (fun kv => P (snd kv)) props -> P (VObj props)) ->
  forall v, P v.
Proof.
  intros Hnull Hbool Hnum Hstr Harr Hobj.
  fix IH 1. intros [| b | n | s | elems | props].
  - apply Hnull.
  - apply Hbool.
  - apply Hnum.
  - apply Hstr.
  - apply Harr. induction elems as [|x elems IHl]; constructor; [apply IH|apply IHl].
  - apply Hobj. induction props as [|[k x] props IHl]; constructor; [apply IH|apply IHl].
Qed.

Lemma stringify_value_start (v : value) :
  exists c r, stringify_value v = String c r /\ value_start c = true.
Proof.
  destruct v as [| [] | n | s | elems | props];
    try (eexists _, _; split; reflexivity).
  destruct (stringify_number_start n) as (c & r & H1 & H2).
  exists c, r. split; [done|]. unfold value_start. by rewrite H2.
Qed.

Lemma number_start_dispatch (c : ascii) :
  number_start c = true ->
  is_ws c = false /\ Ascii.eqb c quote = false /\ Ascii.eqb c "n" = false /\
  Ascii.eqb c "t" = false /\ Ascii.eqb c "f" = false /\
  Ascii.eqb c "[" = false /\ Ascii.eqb c "{" = false.
Proof.
  destruct c as [[] [] [] [] [] [] [] []]; intros H; try discriminate H;
    repeat split; reflexivity.
Qed.

Lemma value_start_not_closing (c : ascii) :
  value_start c = true ->
  is_ws c = false /\ Ascii.eqb c "]" = false /\ Ascii.eqb c "}" = false.
Proof.
  destruct c as [[] [] [] [] [] [] [] []]; intros H; try discriminate H;
    repeat split; reflexivity.
Qed.

Lemma follows_value_spec rest :
  follows_value rest = true -> starts_digit rest = false /\ starts_fraction rest = false.
Proof.
  unfold follows_value. intros [H1 H2]%andb_true_iff.
  by apply negb_true_iff in H1, H2.
Qed.

Lemma parse_value_S fuel s :
  parse_value (S fuel) s =
  match skip_ws s with
  | EmptyString => None
  | String c r =>
      if Ascii.eqb c quote then
        match parse_chars r with
        | Some (str, rest) => Some (VStr str, rest)
        | None => None
        end
      else if Ascii.eqb c "n" then
        match expect "ull" r with
        | Some rest => Some (VNull, rest)
        | None => None
        end
      else if Ascii.eqb c "t" then
        match expect "rue" r with
        | Some rest => Some (VBool true, rest)
        | None => None
        end
      else if Ascii.eqb c "f" then
        match expect "alse" r with
        | Some rest => Some (VBool false, rest)
        | None => None
        end
      else if Ascii.eqb c "[" then
        match starts_with "]" (skip_ws r) with
        | Some rest => Some (VArr [], rest)
        | None =>
            match parse_elements fuel r with
            | Some (elems, rest) => Some (VArr elems, rest)
            | None => None
            end
        end
      else if Ascii.eqb c "{" then
        match starts_with "}" (skip_ws r) with
        | Some rest => Some (VObj [], rest)
        | None =>
            match parse_members fuel r with
            | Some (members, rest) => Some (VObj (build_object members), rest)
            | None => None
            end
        end
      else
        match parse_number (String c r) with
        | Some (n, rest) => Some (VNum n, rest)
        | None => None
        end
  end.
Proof. reflexivity. Qed.

Lemma parse_elements_S fuel s :
  parse_elements (S fuel) s =
  match parse_value fuel s with
  | Some (v, r) =>
      match starts_with "," (skip_ws r) with
      | Some r' =>
          match parse_elements fuel r' with
          | Some (vs, rest) => Some (v :: vs, rest)
          | None => None
          end
      | None =>
          match starts_with "]" (skip_ws r) with
          | Some rest => Some ([v], rest)
          | None => None
          end
      end
  | None => None
  end.
Proof. reflexivity. Qed.

Lemma parse_members_S fuel s :
  parse_members (S fuel) s =
  match starts_with quote (skip_ws s) with
  | Some r =>
      match parse_chars r with
      | Some (k, r1) =>
          match starts_with ":" (skip_ws r1) with
          | Some r2 =>
              match parse_value fuel r2 with
              | Some (v, r3) =>
                  match starts_with "," (skip_ws r3) with
                  | Some r4 =>
                      match parse_members fuel r4 with
                      | Some (ms, rest) => Some ((k, v) :: ms, rest)
                      | None => None
                      end
                  | None =>
                      match starts_with "}" (skip_ws r3) with
                      | Some rest => Some ([(k, v)], rest)
                      | None => None
                      end
                  end
              | None => None
              end
          | None => None
          end
      | None => None
      end
  | None => None
  end.
Proof. reflexivity. Qed.

Lemma stringify_VArr elems :
  stringify_value (VArr elems) = "[" +:+ join_comma (map stringify_value elems) +:+ "]".
Proof. reflexivity. Qed.

Lemma stringify_VObj props :
  stringify_value (VObj props) = "{" +:+ join_comma (map member_text props) +:+ "}".
Proof. reflexivity. Qed.

Lemma sizes_cons x elems : sizes (x :: elems) = S (size x) + sizes elems.
Proof. reflexivity. Qed.

Lemma after_comma (s : string) : starts_with "," (skip_ws ("," +:+ s)) = Some s.
Proof. reflexivity. Qed.

Lemma after_colon (s : string) : starts_with ":" (skip_ws (":" +:+ s)) = Some s.
Proof. reflexivity. Qed.

(** The elements of an array, up to its closing bracket. *)
Lemma parse_elements_stringify (x : value) (elems : list value) :
  Forall (fun v => forall fuel rest, size v <= fuel -> follows_value rest = true ->
            parse_value fuel (stringify_value v +:+ rest) = Some (v, rest))
         (x :: elems) ->
  forall fuel rest, sizes (x :: elems) <= fuel ->
  parse_elements fuel (join_comma (map stringify_value (x :: elems)) +:+ "]" +:+ rest)
  = Some (x :: elems, rest).
Proof.
  revert x. induction elems as [|y elems IH]; intros x Hall fuel rest Hfuel.
  - apply Forall_cons in Hall as [Hx _]. rewrite sizes_cons in Hfuel.
    destruct fuel as [|fuel]; [lia|]. rewrite parse_elements_S.
    cbn [map join_comma]. rewrite Hx; [|lia|reflexivity]. reflexivity.
  - apply Forall_cons in Hall as [Hx Hrest]. rewrite sizes_cons in Hfuel.
    destruct fuel as [|fuel]; [lia|]. rewrite parse_elements_S.
    change (join_comma (map stringify_value (x :: y :: elems)))
      with (stringify_value x +:+ "," +:+ join_comma (map stringify_value (y :: elems))).
    rewrite !string_app_assoc. rewrite Hx; [|lia|reflexivity].
    rewrite after_comma. rewrite IH; [|done|lia]. reflexivity.
Qed.

Lemma members_size_cons k x props :
  members_size ((k, x) :: props) = S (size x) + members_size props.
Proof. reflexivity. Qed.

Lemma member_text_parse (k : string) (x : value) (tail : string) :
  starts_with quote (skip_ws (member_text (k, x) +:+ tail))
  = Some (escape k +:+ String quote (":" +:+ stringify_value x +:+ tail)).
Proof.
  unfold member_text, stringify_string. simpl.
  rewrite !string_app_assoc. reflexivity.
Qed.

(** The properties of an object, up to its closing brace. *)
Lemma parse_members_stringify (p : string * value) (props : list (string * value)) :
  Forall (fun kv => forall fuel rest, size (snd kv) <= fuel -> follows_value rest = true ->
            parse_value fuel (stringify_value (snd kv) +:+ rest) = Some (snd kv, rest))
         (p :: props) ->
  forall fuel rest, members_size (p :: props) <= fuel ->
  parse_members fuel (join_comma (map member_text (p :: props)) +:+ "}" +:+ rest)
  = Some (p :: props, rest).
Proof.
  revert p. induction props as [|q props IH]; intros [k x] Hall fuel rest Hfuel.
  - apply Forall_cons in Hall as [Hx _]. rewrite members_size_cons in Hfuel.
    destruct fuel as [|fuel]; [lia|]. rewrite parse_members_S.
    cbn [map join_comma]. rewrite member_text_parse, parse_chars_escape.
    rewrite after_colon.
    cbn [snd] in Hx. rewrite Hx; [|lia|reflexivity]. reflexivity.
  - apply Forall_cons in Hall as [Hx Hrest]. rewrite members_size_cons in Hfuel.
    destruct fuel as [|fuel]; [lia|]. rewrite parse_members_S.
    change (join_comma (map member_text ((k, x) :: q :: props)))
      with (member_text (k, x) +:+ "," +:+ join_comma (map member_text (q :: props))).
    rewrite !string_app_assoc. rewrite member_text_parse, parse_chars_escape.
    rewrite after_colon.
    cbn [snd] in Hx. rewrite Hx; [|lia|reflexivity].
    rewrite after_comma. rewrite IH; [|done|lia]. reflexivity.
Qed.

Lemma not_in_set_prop {A : Type} (o : list (string * A)) name x :
  name ∉ map fst o -> set_prop o name x = (o ++ [(name, x)])%list.
Proof.
  induction o as [|[k v] o IH]; [done|]. cbn. intros Hn.
  apply not_elem_of_cons in Hn as [Hne Hn].
  destruct (String.eqb k name) eqn:E.
  - apply String.eqb_eq in E. congruence.
  - by rewrite IH.
Qed.

(** Without duplicate names, the object built from the members is the list
    of the members. *)
Lemma build_object_distinct (members : list (string * value)) :
  NoDup (map fst members) -> build_object members = members.
Proof.
  unfold build_object.
  assert (H : forall acc, NoDup (map fst (acc ++ members)%list) ->
            fold_left (fun o kv => set_prop o (fst kv) (snd kv)) members acc
            = (acc ++ members)%list).
  { induction members as [|[k v] members IH]; intros acc Hnd; cbn.
    - by rewrite app_nil_r.
    - rewrite not_in_set_prop.
      + rewrite IH; rewrite <- app_assoc; done.
      + rewrite map_app in Hnd. apply NoDup_app in Hnd as (_ & Hd & _).
        intros Hin. apply (Hd _ Hin). cbn. apply list_elem_of_here. }
  apply (H []).
Qed.

Lemma size_VArr elems : size (VArr elems) = S (sizes elems).
Proof. reflexivity. Qed.

Lemma size_VObj props : size (VObj props) = S (members_size props).
Proof. reflexivity. Qed.

Lemma member_text_start (kv : string * value) :
  exists r, member_text kv = String quote r.
Proof. destruct kv as [k x]. eexists. reflexivity. Qed.

Lemma join_comma_start c r (l : list string) :
  exists r', join_comma (String c r :: l) = String c r'.
Proof. destruct l; eexists; reflexivity. Qed.

Lemma parse_value_open_bracket fuel s :
  parse_value (S fuel) ("[" +:+ s) =
  match starts_with "]" (skip_ws s) with
  | Some rest => Some (VArr [], rest)
  | None =>
      match parse_elements fuel s with
      | Some (elems, rest) => Some (VArr elems, rest)
      | None => None
      end
  end.
Proof. reflexivity. Qed.

Lemma parse_value_open_brace fuel s :
  parse_value (S fuel) ("{" +:+ s) =
  match starts_with "}" (skip_ws s) with
  | Some rest => Some (VObj [], rest)
  | None =>
      match parse_members fuel s with
      | Some (members, rest) => Some (VObj (build_object members), rest)
      | None => None
      end
  end.
Proof. reflexivity. Qed.

Lemma parse_value_quote fuel s :
  parse_value (S fuel) (String quote s) =
  match parse_chars s with
  | Some (str, rest) => Some (VStr str, rest)
  | None => None
  end.
Proof. reflexivity. Qed.

(** Parsing what [stringify_value] wrote gives the value back, with what
    follows the text left over. *)
Lemma parse_value_stringify (v : value) :
  distinct_keys v = true ->
  forall fuel rest, size v <= fuel -> follows_value rest = true ->
  parse_value fuel (stringify_value v +:+ rest) = Some (v, rest).
Proof.
  induction v as [| b | n | s | elems IH | props IH] using value_ind_nested;
    intros Hd fuel rest Hfuel Hrest;
    (destruct fuel as [|fuel]; [cbn in Hfuel; lia|]).
  - reflexivity.
  - destruct b; reflexivity.
  - apply follows_value_spec in Hrest as [Hdig Hfrac].
    pose proof (parse_number_stringify n rest Hdig Hfrac) as Hp.
    destruct (stringify_number_start n) as (c & r & Hc & Hstart).
    cbn [stringify_value]. rewrite Hc in *. cbn [String.append] in *.
    destruct (number_start_dispatch c Hstart) as (H1 & H2 & H3 & H4 & H5 & H6 & H7).
    rewrite parse_value_S. cbn [skip_ws]. rewrite H1, H2, H3, H4, H5, H6, H7, Hp.
    reflexivity.
  - cbn [stringify_value]. unfold stringify_string. cbn [String.append].
    rewrite string_app_assoc. cbn [String.append].
    rewrite parse_value_quote, parse_chars_escape. reflexivity.
  - destruct elems as [|x elems]; [reflexivity|].
    rewrite stringify_VArr, !string_app_assoc, parse_value_open_bracket.
    cbn [distinct_keys] in Hd.
    assert (Hall : Forall (fun v => forall fuel rest, size v <= fuel ->
                     follows_value rest = true ->
                     parse_value fuel (stringify_value v +:+ rest) = Some (v, rest))
                   (x :: elems)).
    { rewrite forallb_forall in Hd. rewrite Forall_forall in IH |- *.
      intros v Hv. apply IH; [done|]. apply Hd. by apply list_elem_of_In. }
    rewrite (parse_elements_stringify x elems Hall) by (rewrite size_VArr in Hfuel; lia).
    destruct (stringify_value_start x) as (c & r & Hc & Hstart).
    cbn [map]. rewrite Hc.
    destruct (join_comma_start c r (map stringify_value elems)) as [r' ->].
    destruct (value_start_not_closing c Hstart) as (H1 & H2 & _).
    cbn [String.append skip_ws starts_with]. rewrite H1. cbn [starts_with].
    rewrite H2. reflexivity.
  - destruct props as [|[k x] props]; [reflexivity|].
    rewrite stringify_VObj, !string_app_assoc, parse_value_open_brace.
    cbn [distinct_keys] in Hd. apply andb_true_iff in Hd as [Hnd Hd].
    apply bool_decide_eq_true in Hnd.
    assert (Hall : Forall (fun kv => forall fuel rest, size (snd kv) <= fuel ->
                     follows_value rest = true ->
                     parse_value fuel (stringify_value (snd kv) +:+ rest)
                     = Some (snd kv, rest))
                   ((k, x) :: props)).
    { rewrite forallb_forall in Hd. rewrite Forall_forall in IH |- *.
      intros kv Hkv. apply IH; [done|]. apply Hd. by apply list_elem_of_In. }
    rewrite (parse_members_stringify (k, x) props Hall)
      by (rewrite size_VObj in Hfuel; lia).
    rewrite build_object_distinct by done.
    cbn [map]. destruct (member_text_start (k, x)) as [r ->].
    destruct (join_comma_start quote r (map member_text props)) as [r' ->].
    reflexivity.
Qed.

Lemma join_comma_length (parts : list string) :
  list_sum (map (fun s => S (String.length s)) parts)
  <= S (String.length (join_comma parts)).
Proof.
  destruct parts as [|s parts]; [cbn; lia|].
  revert s. induction parts as [|t parts IH]; intros s.
  - cbn. lia.
  - change (join_comma (s :: t :: parts)) with (s +:+ "," +:+ join_comma (t :: parts)).
    change (list_sum (map (fun s => S (String.length s)) (s :: t :: parts)))
      with (S (String.length s)
            + list_sum (map (fun s => S (String.length s)) (t :: parts))).
    rewrite !string_length_app. change (String.length ",") with 1.
    specialize (IH t).
    set (X := list_sum _) in *. set (J := String.length (join_comma _)) in *. lia.
Qed.

Lemma list_sum_le {A : Type} (f g : A -> nat) (l : list A) :
  Forall (fun x => f x <= g x) l -> list_sum (map f l) <= list_sum (map g l).
Proof.
  induction 1 as [|x l Hx Hl IH]; [done|].
  change (f x + list_sum (map f l) <= g x + list_sum (map g l)).
  set (F := list_sum (map f l)) in *. set (G := list_sum (map g l)) in *. lia.
Qed.

(** Every node and every list cell of a value takes a character. *)
Lemma size_le_length (v : value) : size v <= String.length (stringify_value v).
Proof.
  induction v as [| b | n | s | elems IH | props IH] using value_ind_nested.
  - cbn. lia.
  - destruct b; cbn; lia.
  - destruct (stringify_number_start n) as (c & r & Hc & _).
    cbn [stringify_value size]. rewrite Hc. cbn. lia.
  - cbn. lia.
  - rewrite stringify_VArr, !string_length_app.
    change (size (VArr elems)) with (S (list_sum (map (fun x => S (size x)) elems))).
    pose proof (join_comma_length (map stringify_value elems)) as Hj.
    rewrite map_map in Hj.
    pose proof (list_sum_le (fun x => S (size x))
                  (fun x => S (String.length (stringify_value x))) elems) as Hs.
    cbn [String.length]. 
    assert (Forall (fun x => S (size x) <= S (String.length (stringify_value x))) elems).
    { eapply Forall_impl; [exact IH|]. cbn. intros. lia. }
    specialize (Hs H). lia.
  - rewrite stringify_VObj, !string_length_app.
    change (size (VObj props)) with (S (list_sum (map (fun kv => S (size (snd kv))) props))).
    pose proof (join_comma_length (map member_text props)) as Hj.
    rewrite map_map in Hj.
    pose proof (list_sum_le (fun kv => S (size (snd kv)))
                  (fun kv => S (String.length (member_text kv))) props) as Hs.
    cbn [String.length].
    assert (Forall (fun kv => S (size (snd kv)) <= S (String.length (member_text kv))) props).
    { eapply Forall_impl; [exact IH|]. intros [k x] Hx. cbn [snd] in *.
      unfold member_text. rewrite !string_length_app. lia. }
    specialize (Hs H). lia.
Qed.

(** [JSON.parse(JSON.stringify(v))] is [v]. *)
Lemma parse_stringify (v : value) :
  distinct_keys v = true -> parse (stringify v) = Some v.
Proof.
  intros Hd. unfold parse, stringify.
  pose proof (parse_value_stringify v Hd (S (String.length (stringify_value v)))
                EmptyString) as H.
  rewrite string_app_nil_r in H. rewrite H; [done| |done].
  pose proof (size_le_length v). lia.
Qed.

#[local] Arguments String.append : simpl never.

(* ===================================================================== *)
(** ** Properties of the collaborators and of property access *)
(* ===================================================================== *)

Lemma get_prop_set_prop_eq {A : Type} (o : list (string * A)) name x :
  get_prop (set_prop o name x) name = Some x.
Proof.
  induction o as [|[k v] o IH]; simpl.
  - by rewrite String.eqb_refl.
  - destruct (String.eqb k name) eqn:E; simpl; rewrite E; done.
Qed.

Lemma get_prop_set_prop_ne {A : Type} (o : list (string * A)) name name' x :
  name ≠ name' -> get_prop (set_prop o name x) name' = get_prop o name'.
Proof.
  intros Hne. induction o as [|[k v] o IH]; simpl.
  - destruct (String.eqb name name') eqn:E; [|done].
    apply String.eqb_eq in E. done.
  - destruct (String.eqb k name) eqn:E; simpl.
    + apply String.eqb_eq in E. subst k.
      destruct (String.eqb name name') eqn:E'; [|done].
      apply String.eqb_eq in E'. done.
    + by rewrite IH.
Qed.

Lemma properties_assign o name x :
  properties (assign o name x) = set_prop (properties o) name x.
Proof. by destruct o. Qed.

Lemma issued_app w w' (l : list call) :
  calls w' = (calls w ++ l)%list -> issued w w' = l.
Proof. unfold issued. intros ->. apply drop_app_length. Qed.

(** The projections of an updated world. *)
Ltac fields :=
  unfold with_isOpen, with_db, with_db_isOpen, with_fs, with_heap, with_calls;
  cbn [_path _isOpen _db db_isOpen _fs heap failing estimate calls].

Ltac step :=
  unfold bind, called, unless_failing, ret, throw, self_path, self_isOpen,
    set_self_isOpen; cbn; fields.

(* ===================================================================== *)
(** ** open *)
(* ===================================================================== *)

(** C9. [_open] on an adapter whose [_isOpen] flag is set succeeds at once
    and leaves the world as it is, no call made; with the flag unset it
    calls [db.open] once, and on success sets the flag (the handle is then
    open), while a failure of [db.open] is reported and the flag stays
    unset. *)
Theorem open_idempotent (w : world) :
  (_isOpen w = true -> _open w = (Done tt, w)) /\
  (_isOpen w = false -> failing w db_open = None ->
     exists w', _open w = (Done tt, w') /\ _isOpen w' = true /\
                db_isOpen w' = true /\ issued w w' = [db_open] /\
                _open w' = (Done tt, w')) /\
  (forall e, _isOpen w = false -> failing w db_open = Some e ->
     exists w', _open w = (Failed e, w') /\ _isOpen w' = false /\
                issued w w' = [db_open] /\ _db w' = _db w /\
                db_isOpen w' = db_isOpen w).
Proof.
  split; [|split].
  - intros H. unfold _open. step. by rewrite H.
  - intros H Hf. unfold _open, db_open_. step. rewrite H. cbn. rewrite Hf.
    eexists. split; [reflexivity|]. cbn. repeat split.
    apply issued_app. done.
  - intros e H Hf. unfold _open, db_open_. step. rewrite H. cbn. rewrite Hf.
    eexists. split; [reflexivity|]. cbn. repeat split; [done|].
    apply issued_app. done.
Qed.

Lemma open_idempotent_witness :
  (exists w', _open (with_isOpen false (fresh nothing_fails)) = (Done tt, w') /\
              _isOpen w' = true /\ db_isOpen w' = true /\
              issued (with_isOpen false (fresh nothing_fails)) w' = [db_open] /\
              _open w' = (Done tt, w')) /\
  (exists w', _open (with_isOpen false (fresh (open_fails (Error "Failed"))))
              = (Failed (Error "Failed"), w') /\ _isOpen w' = false) /\
  _open (fresh nothing_fails) = (Done tt, fresh nothing_fails).
Proof.
  split; [|split].
  - apply (open_idempotent (with_isOpen false (fresh nothing_fails))); reflexivity.
  - destruct (proj2 (proj2 (open_idempotent
        (with_isOpen false (fresh (open_fails (Error "Failed"))))))
        (Error "Failed") eq_refl eq_refl) as (w' & H1 & H2 & _).
    exists w'. split; assumption.
  - apply (open_idempotent (fresh nothing_fails)). reflexivity.
Defined.

(* ===================================================================== *)
(** ** put *)
(* ===================================================================== *)

Lemma props_value_get_prop props vs name :
  props_value props = Some vs ->
  get_prop vs name = get_prop props name ≫= slot_value.
Proof.
  revert vs. induction props as [|[k x] props IH]; intros vs; simpl.
  - by intros [= <-].
  - destruct (slot_value x) as [v|] eqn:Ex; [|done].
    destruct (props_value props) as [vs'|]; [|done].
    intros [= <-]. simpl. destruct (String.eqb k name); [by cbn; rewrite Ex|].
    by apply IH.
Qed.

(** What [_put] does, case by case. *)
Lemma put_cases w key item o :
  heap w !! item = Some o ->
  let o' := assign (assign o "shard" (Json VNull)) "fskey" (Json (VStr key)) in
  let w1 := with_heap (<[item := o']> (heap w)) w in
  match JSON_stringify o' with
  | None => exists e, _put key item w = (Thrown e, w1)
  | Some v =>
      let w2 := with_calls (calls w ++ [db_put key v true]) w1 in
      match failing w (db_put key v true) with
      | Some e => _put key item w = (Failed e, w2)
      | None => _put key item w = (Done tt, with_db (<[key := v]> (_db w)) w2)
      end
  end.
Proof.
  intros Ho o' w1. unfold _put. rewrite Ho. fold o'. fold w1.
  destruct (JSON_stringify o') as [v|]; [|eauto].
  unfold db_put_. step. destruct (failing w (db_put key v true)); reflexivity.
Qed.

(** C10. [_put] changes the caller's item in place: however [_put]
    completes, also when the write to the store fails, the object the
    caller passed has [shard] set to [null] and [fskey] set to the key; its
    other properties and the other objects of the caller are as before. *)
Theorem put_mutates_item (w : world) (key : string) (item : loc) (o : object)
    (r : completion unit) (w' : world) :
  heap w !! item = Some o ->
  _put key item w = (r, w') ->
  exists o', heap w' !! item = Some o' /\
    get_prop (properties o') "shard" = Some (Json VNull) /\
    get_prop (properties o') "fskey" = Some (Json (VStr key)) /\
    (forall name, name <> "shard" -> name <> "fskey" ->
       get_prop (properties o') name = get_prop (properties o) name) /\
    (forall l, l <> item -> heap w' !! l = heap w !! l).
Proof.
  intros Ho Hput. pose proof (put_cases w key item o Ho) as Hc. cbn zeta in Hc.
  set (o' := assign (assign o "shard" (Json VNull)) "fskey" (Json (VStr key))) in *.
  assert (Hheap : heap w' = <[item := o']> (heap w)).
  { destruct (JSON_stringify o') as [v|].
    - destruct (failing w (db_put key v true)); rewrite Hc in Hput;
        injection Hput as _ <-; reflexivity.
    - destruct Hc as [e Hc]. rewrite Hc in Hput. injection Hput as _ <-. reflexivity. }
  exists o'. rewrite Hheap. split; [apply lookup_insert_eq|].
  unfold o'. rewrite !properties_assign. repeat split.
  - rewrite get_prop_set_prop_ne by done. apply get_prop_set_prop_eq.
  - apply get_prop_set_prop_eq.
  - intros name H1 H2. rewrite !get_prop_set_prop_ne by done. done.
  - intros l Hl. by rewrite lookup_insert_ne.
Qed.

Lemma put_mutates_item_witness :
  fst (_put "abc" 1%nat (fresh (put_fails "abc" (Error "Failed"))))
    = Failed (Error "Failed") /\
  exists o',
    heap (snd (_put "abc" 1%nat (fresh (put_fails "abc" (Error "Failed"))))) !! 1%nat
      = Some o' /\
    get_prop (properties o') "shard" = Some (Json VNull) /\
    get_prop (properties o') "fskey" = Some (Json (VStr "abc")).
Proof.
  split; [reflexivity|].
  destruct (put_mutates_item (fresh (put_fails "abc" (Error "Failed"))) "abc" 1%nat
              (Plain [("hash", Json (VStr "abc")); ("shard", Buffer "test")])
              _ _ eq_refl eq_refl) as (o' & H1 & H2 & H3 & _).
  exists o'. repeat split; assumption.
Defined.

(** C5. What [_put] hands to the store holds no shard data: the only
    [db.put] it makes is for the key, with [sync] set, and its value is the
    serialisation of the item after [shard] was set to [null] and [fskey] to
    the key; for a record, the serialised object has [shard: null] and
    [fskey: key].  On success that text is what the store holds for the key;
    otherwise the store is as before. *)
Theorem put_persists_metadata_only (w : world) (key : string) (item : loc)
    (o : object) (r : completion unit) (w' : world) :
  heap w !! item = Some o ->
  _put key item w = (r, w') ->
  let o' := assign (assign o "shard" (Json VNull)) "fskey" (Json (VStr key)) in
  get_prop (properties o') "shard" = Some (Json VNull) /\
  get_prop (properties o') "fskey" = Some (Json (VStr key)) /\
  (forall k v sync, db_put k v sync ∈ issued w w' ->
     k = key /\ JSON_stringify o' = Some v /\ sync = true) /\
  (forall props v, o = Plain props -> JSON_stringify o' = Some v ->
     exists vs, v = stringify (VObj vs) /\ get_prop vs "shard" = Some VNull /\
                get_prop vs "fskey" = Some (VStr key)) /\
  (r = Done tt -> exists v, JSON_stringify o' = Some v /\ _db w' = <[key := v]> (_db w)) /\
  (r <> Done tt -> _db w' = _db w).
Proof.
  intros Ho Hput o'. pose proof (put_cases w key item o Ho) as Hc. cbn zeta in Hc.
  fold o' in Hc.
  split; [|split; [|split; [|split; [|split]]]].
  - unfold o'. rewrite !properties_assign.
    rewrite get_prop_set_prop_ne by done. apply get_prop_set_prop_eq.
  - unfold o'. rewrite !properties_assign. apply get_prop_set_prop_eq.
  - intros k v sync Hin.
    destruct (JSON_stringify o') as [v0|].
    + assert (Hi : issued w w' = [db_put key v0 true]).
      { destruct (failing w (db_put key v0 true)); rewrite Hc in Hput;
          injection Hput as _ <-; by apply issued_app. }
      rewrite Hi in Hin. apply list_elem_of_singleton in Hin.
      injection Hin as -> -> ->. done.
    + destruct Hc as [e Hc]. rewrite Hc in Hput. injection Hput as _ <-.
      unfold issued in Hin. cbn in Hin. rewrite drop_all in Hin.
      by apply not_elem_of_nil in Hin.
  - intros props v -> Hv. unfold o' in Hv. cbn in Hv.
    destruct (props_value _) as [vs|] eqn:Evs; [|done].
    injection Hv as <-. exists vs. split; [done|].
    rewrite !(props_value_get_prop _ _ _ Evs).
    rewrite get_prop_set_prop_ne by done. rewrite !get_prop_set_prop_eq. done.
  - intros ->. destruct (JSON_stringify o') as [v|].
    + exists v. split; [done|].
      destruct (failing w (db_put key v true)); rewrite Hc in Hput; [done|].
      injection Hput as <-. done.
    + destruct Hc as [e Hc]. rewrite Hc in Hput. done.
  - intros Hr. destruct (JSON_stringify o') as [v|].
    + destruct (failing w (db_put key v true)); rewrite Hc in Hput.
      * injection Hput as _ <-. done.
      * injection Hput as <- _. done.
    + destruct Hc as [e Hc]. rewrite Hc in Hput. injection Hput as _ <-. done.
Qed.

Lemma put_persists_metadata_only_witness :
  _db (snd (_put "abc" 1%nat (fresh nothing_fails))) !! "abc"
    = Some (text "{'hash':'abc','shard':null,'fskey':'abc'}") /\
  forall k v sync,
    db_put k v sync ∈ issued (fresh nothing_fails)
                        (snd (_put "abc" 1%nat (fresh nothing_fails))) ->
    k = "abc" /\
    JSON_stringify
      (assign (assign (Plain [("hash", Json (VStr "abc")); ("shard", Buffer "test")])
                 "shard" (Json VNull)) "fskey" (Json (VStr "abc"))) = Some v /\
    sync = true.
Proof.
  split; [reflexivity|].
  apply (put_persists_metadata_only (fresh nothing_fails) "abc" 1%nat
           (Plain [("hash", Json (VStr "abc")); ("shard", Buffer "test")])
           _ _ eq_refl eq_refl).
Defined.


(* ===================================================================== *)
(** ** put, then peek *)
(* ===================================================================== *)

Lemma set_prop_keys {A : Type} (o : list (string * A)) name x k :
  k ∈ map fst (set_prop o name x) -> k ∈ map fst o \/ k = name.
Proof.
  induction o as [|[k' v] o IH]; cbn.
  - intros H. apply list_elem_of_singleton in H. by right.
  - destruct (String.eqb k' name); cbn; [by left|].
    intros [->|H]%elem_of_cons; [left; apply list_elem_of_here|].
    destruct (IH H) as [H'|H']; [left; by apply list_elem_of_further|by right].
Qed.

Lemma set_prop_NoDup {A : Type} (o : list (string * A)) name x :
  NoDup (map fst o) -> NoDup (map fst (set_prop o name x)).
Proof.
  induction o as [|[k v] o IH]; cbn; intros Hnd.
  - apply NoDup_singleton.
  - destruct (String.eqb k name) eqn:E; cbn; [done|].
    apply NoDup_cons in Hnd as [Hk Hnd]. apply NoDup_cons. split; [|by apply IH].
    intros [H| ->]%set_prop_keys; [done|].
    by rewrite String.eqb_refl in E.
Qed.

Lemma set_prop_Forall {A : Type} (P : string * A -> Prop) (o : list (string * A)) name x :
  NoDup (map fst o) ->
  Forall (fun kx => fst kx = name \/ P kx) o ->
  P (name, x) ->
  Forall P (set_prop o name x).
Proof.
  induction o as [|[k v] o IH]; cbn; intros Hnd Hall Hx.
  - by constructor.
  - apply NoDup_cons in Hnd as [Hk Hnd]. apply Forall_cons in Hall as [Hkv Hall].
    destruct (String.eqb k name) eqn:E.
    + apply String.eqb_eq in E as ->. constructor; [done|].
      rewrite Forall_forall in Hall |- *. intros [k' v'] Hin.
      destruct (Hall _ Hin) as [Heq|HP]; [|done]. cbn in Heq. subst k'.
      destruct Hk. apply list_elem_of_fmap. by exists (name, v').
    + constructor; [|by apply IH].
      destruct Hkv as [Heq|HP]; [|done]. cbn in Heq. subst k.
      by rewrite String.eqb_refl in E.
Qed.

Lemma props_value_valid (props : list (string * slot)) :
  Forall (fun kx => valid_slot (snd kx) = true) props ->
  exists vs, props_value props = Some vs /\ map fst vs = map fst props /\
             forallb (fun kv => distinct_keys (snd kv)) vs = true.
Proof.
  induction 1 as [|[k x] props Hx Hall (vs & Hvs & Hkeys & Hd)]; cbn.
  - by exists [].
  - unfold valid_slot in Hx. cbn in Hx.
    destruct (slot_value x) as [v|]; [|done]. rewrite Hvs.
    exists ((k, v) :: vs). cbn. rewrite Hkeys, Hx, Hd. done.
Qed.

(** What [_put] hands to the store for a valid item parses back to the
    record it was serialised from. *)
Lemma valid_item_serialised (props : list (string * slot)) (key : string) :
  valid_item (Plain props) = true ->
  exists vs,
    JSON_stringify (assign (assign (Plain props) "shard" (Json VNull))
                      "fskey" (Json (VStr key)))
    = Some (stringify (VObj vs)) /\
    JSON_parse (stringify (VObj vs)) = Some (VObj vs) /\
    forall name,
      get_prop vs name
      = get_prop (set_prop (set_prop props "shard" (Json VNull))
                    "fskey" (Json (VStr key))) name ≫= slot_value.
Proof.
  intros [Hnd Hall]%andb_true_iff. apply bool_decide_eq_true in Hnd.
  set (props1 := set_prop props "shard" (Json VNull)).
  set (props2 := set_prop props1 "fskey" (Json (VStr key))).
  assert (H1 : Forall (fun kx => valid_slot (snd kx) = true) props1).
  { apply set_prop_Forall; [done| |done].
    rewrite forallb_forall in Hall. apply Forall_forall. intros kx Hin.
    apply list_elem_of_In, Hall, orb_true_iff in Hin as [Hin|Hin]; [|by right].
    left. by apply String.eqb_eq. }
  assert (H2 : Forall (fun kx => valid_slot (snd kx) = true) props2).
  { apply set_prop_Forall; [by apply set_prop_NoDup| |done].
    eapply Forall_impl; [exact H1|]. cbn. auto. }
  destruct (props_value_valid props2 H2) as (vs & Hvs & Hkeys & Hd).
  exists vs. split; [|split].
  - unfold assign, JSON_stringify. fold props1. fold props2. by rewrite Hvs.
  - apply parse_stringify. cbn [distinct_keys]. rewrite Hd, Hkeys.
    rewrite andb_true_r. apply bool_decide_eq_true.
    by do 2 apply set_prop_NoDup.
  - intros name. by apply props_value_get_prop.
Qed.

(** What [_peek] does for a key whose record parses. *)
Lemma peek_cases w key value v :
  _db w !! key = Some value ->
  failing w (db_get key false) = None ->
  JSON_parse value = Some v ->
  _peek key w = (Done v, with_calls (calls w ++ [db_get key false]) w).
Proof.
  intros Hdb Hf Hv. unfold _peek, db_get_, parse_record. step.
  rewrite Hf. step. rewrite Hdb. step. by rewrite Hv.
Qed.

(** C1 (as the code has it).  For a valid item, [_put] followed by [_peek]
    of the same key succeeds and delivers a record with [shard: null], with
    [fskey] set to the key, whatever the item had there, and with every
    other property as the item had it. *)
Theorem put_then_peek (w : world) (key : string) (item : loc) (o : object) :
  heap w !! item = Some o ->
  valid_item o = true ->
  (forall value, failing w (db_put key value true) = None) ->
  failing w (db_get key false) = None ->
  exists props w',
    (_put key item ;; _peek key) w = (Done (VObj props), w') /\
    get_prop props "shard" = Some VNull /\
    get_prop props "fskey" = Some (VStr key) /\
    forall name, name <> "shard" -> name <> "fskey" ->
      get_prop props name = get_prop (properties o) name ≫= slot_value.
Proof.
  intros Ho Hvalid Hput Hget. destruct o as [props|]; [|done].
  destruct (valid_item_serialised props key Hvalid) as (vs & Hs & Hp & Hprops).
  pose proof (put_cases w key item (Plain props) Ho) as Hc. cbn zeta in Hc.
  rewrite Hs, Hput in Hc.
  exists vs. eexists. split; [|split; [|split]].
  - unfold bind at 1. rewrite Hc.
    apply (peek_cases _ key (stringify (VObj vs))); [|done|done].
    fields. apply lookup_insert_eq.
  - rewrite Hprops. rewrite get_prop_set_prop_ne by done.
    by rewrite get_prop_set_prop_eq.
  - rewrite Hprops. by rewrite get_prop_set_prop_eq.
  - intros name H1 H2. rewrite Hprops. by rewrite !get_prop_set_prop_ne.
Qed.

Lemma put_then_peek_witness :
  exists props w',
    (_put "abc" 1%nat ;; _peek "abc") (fresh nothing_fails) = (Done (VObj props), w') /\
    get_prop props "shard" = Some VNull /\
    get_prop props "fskey" = Some (VStr "abc") /\
    get_prop props "hash" = Some (VStr "abc").
Proof.
  destruct (put_then_peek (fresh nothing_fails) "abc" 1%nat
              (Plain [("hash", Json (VStr "abc")); ("shard", Buffer "test")])
              eq_refl eq_refl (fun _ => eq_refl) eq_refl)
    as (props & w' & H1 & H2 & H3 & H4).
  exists props, w'. split; [exact H1|]. split; [exact H2|]. split; [exact H3|].
  rewrite H4 by discriminate. reflexivity.
Defined.

(** C1 (as claimed) fails: the item handed to [_put] has no [fskey], the
    record [_peek] delivers has one. *)
Lemma put_peek_changes_fskey :
  ~ put_peek_keeps_non_shard (fresh nothing_fails) "abc" 1%nat.
Proof.
  intros H. destruct (H _ eq_refl) as (props & w' & Hrun & _ & Hother).
  assert (Hp : fst ((_put "abc" 1%nat ;; _peek "abc") (fresh nothing_fails))
               = Done (VObj [("hash", VStr "abc"); ("shard", VNull);
                             ("fskey", VStr "abc")]))
    by (vm_compute; reflexivity).
  rewrite Hrun in Hp. cbn [fst] in Hp. injection Hp as ->.
  specialize (Hother "fskey" ltac:(discriminate)). discriminate Hother.
Qed.

(* ===================================================================== *)
(** ** del *)
(* ===================================================================== *)

(** [_peek] reads: it makes one [db.get] and changes nothing else. *)
Lemma peek_world w key r w1 :
  _peek key w = (r, w1) ->
  w1 = with_calls (calls w ++ [db_get key false]) w.
Proof.
  unfold _peek, db_get_, parse_record. step.
  destruct (failing w (db_get key false)); step; [by intros [= _ <-]|].
  destruct (_db w !! key) as [v|]; step; [|by intros [= _ <-]].
  destruct (JSON_parse v); step; by intros [= _ <-].
Qed.

Lemma del_entry_fails w key fskey e :
  failing w (db_del key) = Some e ->
  del_entry_then_file key fskey w
  = (Failed e, with_calls (calls w ++ [db_del key]) w).
Proof. intros H. unfold del_entry_then_file, db_del_. step. by rewrite H. Qed.

Lemma del_entry_succeeds w key f :
  failing w (db_del key) = None ->
  del_entry_then_file key (VStr f) w
  = fs_unlink_ (Path.join (_path w) f)
      (with_db (delete key (_db w)) (with_calls (calls w ++ [db_del key]) w)).
Proof.
  intros H. unfold del_entry_then_file, db_del_, path_join. step. by rewrite H.
Qed.


(** C4. When the [db.del] of [_del] fails, [_del] fails with that error and
    nothing but the pre-read and the [db.del] itself was called: the file
    system is as before and no [fs.unlink] was made.  (The only other way
    out is an exception of the pre-read, before [db.del] is reached.) *)
Theorem del_db_failure_leaves_fs_untouched (w : world) (key : string)
    (e : error) (r : completion unit) (w' : world) :
  failing w (db_del key) = Some e ->
  _del key w = (r, w') ->
  _fs w' = _fs w /\ _db w' = _db w /\
  (forall path, fs_unlink path ∉ issued w w') /\
  (db_del key ∈ issued w w' -> r = Failed e) /\
  ((r = Failed e /\ issued w w' = [db_get key false; db_del key]) \/
   (exists e', r = Thrown e' /\ issued w w' = [db_get key false])).
Proof.
  intros Hf Hdel. unfold _del in Hdel.
  destruct (_peek key w) as [p w1] eqn:Hp.
  pose proof (peek_world _ _ _ _ Hp) as ->.
  assert (Hcase :
    (r = Failed e /\ w' = with_calls ((calls w ++ [db_get key false]) ++ [db_del key]) w) \/
    (exists e', r = Thrown e' /\ w' = with_calls (calls w ++ [db_get key false]) w)).
  { destruct p as [item|err|err].
    - revert Hdel. unfold bind, member.
      destruct item; unfold ret, throw; try (rewrite (del_entry_fails _ _ _ e) by done;
        intros [= <- <-]; left; done).
      intros [= <- <-]. right. eauto.
    - rewrite (del_entry_fails _ _ _ e) in Hdel by done. injection Hdel as <- <-. by left.
    - injection Hdel as <- <-. right. eauto. }
  destruct Hcase as [[-> ->]|(e' & -> & ->)]; cbn.
  - assert (Hi : issued w (with_calls ((calls w ++ [db_get key false]) ++ [db_del key]) w)
                 = [db_get key false; db_del key]).
    { apply issued_app. cbn. by rewrite <- app_assoc. }
    rewrite Hi. repeat split; [|by left].
    intros path Hin. rewrite !elem_of_cons in Hin.
    destruct Hin as [Hin|[Hin|Hin]]; [done|done|by apply not_elem_of_nil in Hin].
  - assert (Hi : issued w (with_calls (calls w ++ [db_get key false]) w)
                 = [db_get key false]).
    { by apply issued_app. }
    rewrite Hi. repeat split.
    + intros path Hin. by apply list_elem_of_singleton in Hin.
    + intros Hin. by apply list_elem_of_singleton in Hin.
    + right. eauto.
Qed.

Lemma del_db_failure_leaves_fs_untouched_witness :
  let w := with_fs (<["/data/abc" := File "test"]> (_fs (fresh nothing_fails)))
             (with_db {[ "abc" := text "{'hash':'abc','shard':null,'fskey':'abc'}" ]}
                (fresh (del_fails "abc" (Error "Failed to delete")))) in
  fst (_del "abc" w) = Failed (Error "Failed to delete") /\
  _fs (snd (_del "abc" w)) = _fs w /\
  forall path, fs_unlink path ∉ issued w (snd (_del "abc" w)).
Proof.
  intros w.
  destruct (del_db_failure_leaves_fs_untouched w "abc" (Error "Failed to delete")
              (fst (_del "abc" w)) (snd (_del "abc" w)) eq_refl eq_refl)
    as (H1 & _ & H2 & H3 & _).
  split; [|split; assumption].
  apply H3. vm_compute. apply list_elem_of_In. right. left. reflexivity.
Defined.

(** C6. A failed pre-read does not stop [_del]: it goes on to [db.del] for
    the key and, once that succeeded, to [fs.unlink] of the file named by
    the key itself.  When the pre-read delivers a record whose [fskey] is a
    non-empty string, the file named by that [fskey] is unlinked instead.
    In both cases the entry of the key is deleted from the store and the
    outcome of [_del] is that of the [fs.unlink], which removes the file
    when it is there; [_del] never ends in an exception; and when [db.del]
    fails, [_del] fails with its error, the store and the directory being as
    before. *)
Theorem del_tolerates_failed_preread (w : world) (key : string) :
  (forall err w1, _peek key w = (Failed err, w1) ->
     exists r w', _del key w = (r, w') /\
       (forall e, r <> Thrown e) /\
       (forall e, failing w (db_del key) = Some e ->
          r = Failed e /\ issued w w' = [db_get key false; db_del key] /\
          _db w' = _db w /\ _fs w' = _fs w) /\
       (failing w (db_del key) = None ->
          issued w w' = [db_get key false; db_del key;
                         fs_unlink (Path.join (_path w) key)] /\
          _db w' = delete key (_db w) /\
          unlinked w (Path.join (_path w) key) r w')) /\
  (forall props f w1,
     _peek key w = (Done (VObj props), w1) ->
     get_prop props "fskey" = Some (VStr f) -> f <> EmptyString ->
     exists r w', _del key w = (r, w') /\
       (forall e, r <> Thrown e) /\
       (forall e, failing w (db_del key) = Some e ->
          r = Failed e /\ issued w w' = [db_get key false; db_del key] /\
          _db w' = _db w /\ _fs w' = _fs w) /\
       (failing w (db_del key) = None ->
          issued w w' = [db_get key false; db_del key;
                         fs_unlink (Path.join (_path w) f)] /\
          _db w' = delete key (_db w) /\
          unlinked w (Path.join (_path w) f) r w')).
Proof.
  assert (Hgen : forall f w1, w1 = with_calls (calls w ++ [db_get key false]) w ->
    exists r w', del_entry_then_file key (VStr f) w1 = (r, w') /\
       (forall e, r <> Thrown e) /\
       (forall e, failing w (db_del key) = Some e ->
          r = Failed e /\ issued w w' = [db_get key false; db_del key] /\
          _db w' = _db w /\ _fs w' = _fs w) /\
       (failing w (db_del key) = None ->
          issued w w' = [db_get key false; db_del key;
                         fs_unlink (Path.join (_path w) f)] /\
          _db w' = delete key (_db w) /\
          unlinked w (Path.join (_path w) f) r w')).
  { intros f w1 ->. destruct (failing w (db_del key)) as [e|] eqn:Hf.
    - rewrite (del_entry_fails _ _ _ e) by done. do 2 eexists. split; [reflexivity|].
      split; [done|]. split; [|done]. intros e0 [= <-]. split; [done|].
      split; [|done]. apply issued_app. cbn. by rewrite <- app_assoc.
    - rewrite (del_entry_succeeds _ key f) by done.
      unfold fs_unlink_, unlinked. step.
      destruct (failing w (fs_unlink (Path.join (_path w) f))) as [e|]; step;
        [|destruct (_fs w !! Path.join (_path w) f) as [[data|size]|]; step];
        (do 2 eexists; split; [reflexivity|]; split; [done|]; split; [done|];
         intros _; split; [apply issued_app; cbn; by rewrite <- !app_assoc|done]). }
  split.
  - intros err w1 Hp. unfold _del. rewrite Hp.
    apply Hgen. by eapply peek_world.
  - intros props f w1 Hp Hfs Hne. unfold _del. rewrite Hp.
    unfold bind, member, ret. rewrite Hfs.
    replace (truthy (Some (VStr f))) with true by (by destruct f).
    apply Hgen. by eapply peek_world.
Qed.

Lemma del_tolerates_failed_preread_witness :
  (exists w', _del "abc" (uploaded (get_fails (Error "Not found"))) = (Done tt, w') /\
     issued (uploaded (get_fails (Error "Not found"))) w'
     = [db_get "abc" false; db_del "abc"; fs_unlink "/data/abc"] /\
     _db w' !! "abc" = None /\ _fs w' !! "/data/abc" = None) /\
  (exists w', _del "a" aliased = (Done tt, w') /\
     issued aliased w' = [db_get "a" false; db_del "a"; fs_unlink "/data/b"] /\
     _db w' !! "a" = None /\ _fs w' !! "/data/b" = None).
Proof.
  split.
  - assert (Hp : _peek "abc" (uploaded (get_fails (Error "Not found")))
                 = (Failed (Error "Not found"),
                    snd (_peek "abc" (uploaded (get_fails (Error "Not found"))))))
      by (vm_compute; reflexivity).
    destruct (proj1 (del_tolerates_failed_preread
                       (uploaded (get_fails (Error "Not found"))) "abc") _ _ Hp)
      as (r & w' & H1 & _ & _ & H2).
    destruct (H2 eq_refl) as (H3 & H4 & H5 & H6).
    exists w'. rewrite <- H5. split; [exact H1|]. split; [exact H3|].
    rewrite H4, H6. split; apply lookup_delete_eq.
  - assert (Hp : _peek "a" aliased
                 = (Done (VObj [("hash", VStr "a"); ("shard", VNull); ("fskey", VStr "b")]),
                    snd (_peek "a" aliased)))
      by (vm_compute; reflexivity).
    destruct (proj2 (del_tolerates_failed_preread aliased "a") _ "b" _
                Hp eq_refl ltac:(discriminate)) as (r & w' & H1 & _ & _ & H2).
    destruct (H2 eq_refl) as (H3 & H4 & H5 & H6).
    exists w'. rewrite <- H5. split; [exact H1|]. split; [exact H3|].
    rewrite H4, H6. split; apply lookup_delete_eq.
Defined.

(** The pre-read can also end in an exception, which is not an error handed
    to its callback: when the text stored for the key is not JSON,
    [JSON.parse] throws, and [_del] ends there, before [db.del]. *)
Lemma del_unparsable_record (w : world) (key value : string) :
  _db w !! key = Some value ->
  failing w (db_get key false) = None ->
  plain_text value = true ->
  JSON_parse value = None ->
  exists e w', _del key w = (Thrown e, w') /\
    issued w w' = [db_get key false] /\ _db w' = _db w /\ _fs w' = _fs w.
Proof.
  intros Hdb Hf _ Hv. unfold _del, _peek, db_get_, parse_record. step.
  rewrite Hf. step. rewrite Hdb. step. rewrite Hv. step.
  do 2 eexists. split; [reflexivity|]. split; [by apply issued_app|done].
Qed.

(* ===================================================================== *)
(** ** get *)
(* ===================================================================== *)

(** What [_get] does for a key whose record parses to an object: any error
    of [fs.stat] selects the write stream. *)
Lemma get_cases w key value v o :
  _db w !! key = Some value ->
  failing w (db_get key false) = None ->
  JSON_parse value = Some v ->
  to_object v = Some o ->
  let pathToFile := Path.join (_path w) key in
  let w1 := with_calls (calls w ++ [db_get key false; fs_stat pathToFile]) w in
  _get key w =
  match failing w (fs_stat pathToFile), _fs w !! pathToFile with
  | None, Some _ =>
      (Done (assign o "shard" (Stream (ReadStream pathToFile))),
       with_calls (calls w1 ++ [fs_createReadStream pathToFile]) w1)
  | _, _ =>
      (Done (assign o "shard" (Stream (WriteStream pathToFile))),
       with_calls (calls w1 ++ [fs_createWriteStream pathToFile]) w1)
  end.
Proof.
  intros Hdb Hf Hv Ho pathToFile w1.
  unfold _get, db_get_, parse_record, fs_stat_. step. rewrite Hf. step.
  rewrite Hdb. step. rewrite Hv. step. fold pathToFile.
  destruct (failing w (fs_stat pathToFile)) as [e|] eqn:Hs; step;
    [|destruct (_fs w !! pathToFile) as [n|] eqn:Hfs; step].
  - unfold fs_createWriteStream_. step. rewrite Ho. step.
    unfold w1. fields. by rewrite <- !app_assoc.
  - unfold fs_createReadStream_. step. rewrite Ho. step.
    unfold w1. fields. by rewrite <- !app_assoc.
  - unfold fs_createWriteStream_. step. rewrite Ho. step.
    unfold w1. fields. by rewrite <- !app_assoc.
Qed.

(** C3. The shard of [a] is stored, in the file its record names, [/data/b],
    the file that [_del] of [a] removes; yet [_get] of [a] attaches a write
    stream, on [/data/a], and opens no read stream at all: it tells the
    caller that there is no payload yet. *)
Theorem get_offers_write_stream_for_stored_shard :
  _db aliased !! "a" = Some (text "{'hash':'a','shard':null,'fskey':'b'}") /\
  _fs aliased !! Path.join (_path aliased) "b" = Some (File "payload") /\
  (forall c, failing aliased c = None) /\
  fst (_get "a" aliased)
  = Done (Plain [("hash", Json (VStr "a"));
                 ("shard", Stream (WriteStream (Path.join (_path aliased) "a")));
                 ("fskey", Json (VStr "b"))]) /\
  (forall path, fs_createReadStream path ∉ issued aliased (snd (_get "a" aliased))) /\
  _fs (snd (_del "a" aliased)) !! Path.join (_path aliased) "b" = None.
Proof.
  split; [vm_compute; reflexivity|]. split; [vm_compute; reflexivity|].
  split; [done|]. split; [vm_compute; reflexivity|]. split; [|vm_compute; reflexivity].
  intros path Hin.
  replace (issued aliased (snd (_get "a" aliased)))
    with [db_get "a" false; fs_stat "/data/a"; fs_createWriteStream "/data/a"]
    in Hin by (vm_compute; reflexivity).
  rewrite !elem_of_cons in Hin.
  destruct Hin as [Hin|[Hin|[Hin|Hin]]]; [done|done|done|by apply not_elem_of_nil in Hin].
Qed.

(** C2. [_get] never consults [fskey]: for the record of [a], whose [fskey]
    is [b], it stats [/data/a] and, nothing being there, opens a write
    stream on [/data/a]; the shard in [/data/b] is not looked at, while
    [_del] of the same key unlinks [/data/b]. *)
Theorem get_ignores_fskey :
  JSON_parse (text "{'hash':'a','shard':null,'fskey':'b'}")
  = Some (VObj [("hash", VStr "a"); ("shard", VNull); ("fskey", VStr "b")]) /\
  fst (_get "a" aliased)
  = Done (Plain [("hash", Json (VStr "a"));
                 ("shard", Stream (WriteStream "/data/a"));
                 ("fskey", Json (VStr "b"))]) /\
  issued aliased (snd (_get "a" aliased))
  = [db_get "a" false; fs_stat "/data/a"; fs_createWriteStream "/data/a"] /\
  issued aliased (snd (_del "a" aliased))
  = [db_get "a" false; db_del "a"; fs_unlink "/data/b"].
Proof. repeat split; vm_compute; reflexivity. Qed.

(* ===================================================================== *)
(** ** size *)
(* ===================================================================== *)

Lemma expect_Some lit s rest : expect lit s = Some rest -> s = lit +:+ rest.
Proof.
  revert s. induction lit as [|a lit IH]; intros [|b s]; simpl; try done.
  - by intros [= <-].
  - by intros [= <-].
  - destruct (Ascii.eqb a b) eqn:E; [|done].
    apply Ascii.eqb_eq in E as ->. intros H. by rewrite (IH _ H).
Qed.

Lemma entry_name_join dir path name :
  Path.entry_name dir path = Some name -> path = Path.join dir name.
Proof.
  unfold Path.entry_name, Path.join.
  destruct (expect (dir +:+ "/") path) as [rest|] eqn:E; [|done].
  apply expect_Some in E as ->. destruct rest as [|c rest]; [done|].
  destruct (Path.has_separator _); [done|]. intros [= <-].
  apply string_app_assoc.
Qed.

(** Every listed entry is found again under its joined path. *)
Lemma listed_lookup w name n :
  (name, n) ∈ listed w -> _fs w !! Path.join (_path w) name = Some n.
Proof.
  unfold listed. rewrite list_elem_of_omap. intros ([path n'] & Hin & Hname).
  apply elem_of_map_to_list in Hin.
  destruct (Path.entry_name (_path w) path) as [name'|] eqn:E; [|done].
  cbn in Hname. injection Hname as -> ->.
  by rewrite <- (entry_name_join _ _ _ E).
Qed.

(** The names [fs.readdir] delivers are those of the listed entries. *)
Lemma readdir_names w :
  omap (Path.entry_name (_path w)) (map fst (map_to_list (_fs w)))
  = map fst (listed w).
Proof.
  unfold listed. induction (map_to_list (_fs w)) as [|[path n] l IH]; [done|].
  cbn. destruct (Path.entry_name (_path w) path); cbn; by rewrite IH.
Qed.

(** The loop of [_size] over entries that exist: one [fs.statSync] each, and
    their sizes added up. *)
Lemma sum_sizes_entries root entries : forall totalSize w,
  (forall name n, (name, n) ∈ entries -> _fs w !! Path.join root name = Some n) ->
  sum_sizes root (map fst entries) totalSize w
  = (Done (totalSize + bytes entries)%Z,
     with_calls (calls w ++ map (fun e => fs_statSync (Path.join root (fst e))) entries) w).
Proof.
  induction entries as [|[name n] entries IH]; intros totalSize w Hin.
  - cbn. unfold ret. rewrite Z.add_0_r, app_nil_r. by destruct w.
  - cbn [map fst sum_sizes]. unfold fs_statSync_. step.
    rewrite (Hin name n) by apply list_elem_of_here. step.
    rewrite IH.
    + cbn. f_equal; [unfold bytes; f_equal; lia|]. fields. by rewrite <- app_assoc.
    + intros name' n' H. cbn. apply Hin. by apply list_elem_of_further.
Qed.

Lemma bytes_cons name n entries :
  bytes ((name, n) :: entries) = (node_size n + bytes entries)%Z.
Proof. reflexivity. Qed.


(** What [_size] does when neither the estimate nor [fs.readdir] fails. *)
Lemma size_cases w key :
  failing w (db_approximateSize SIZE_START_KEY SIZE_END_KEY) = None ->
  failing w (fs_readdir (_path w)) = None ->
  _size key w
  = (Done (bytes (listed w), estimate w SIZE_START_KEY SIZE_END_KEY),
     with_calls
       (calls w ++ db_approximateSize SIZE_START_KEY SIZE_END_KEY
                :: fs_readdir (_path w)
                :: map (fun e => fs_statSync (Path.join (_path w) (fst e))) (listed w))
       w).
Proof.
  intros Ha Hr. unfold _size, db_approximateSize_, fs_readdir_. step.
  rewrite Ha. step. rewrite Hr. step. rewrite readdir_names.
  rewrite sum_sizes_entries.
  - cbn. f_equal. fields. by rewrite <- !app_assoc.
  - intros name n Hin. cbn. by apply listed_lookup.
Qed.

Lemma expect_app (lit s : string) : expect lit (lit +:+ s) = Some s.
Proof.
  induction lit as [|c lit IH]; [done|].
  change (String c lit +:+ s) with (String c (lit +:+ s)).
  cbn [expect]. by rewrite Ascii.eqb_refl.
Qed.









(* ===================================================================== *)
(** * Further properties of the operations *)
(* ===================================================================== *)

(** One case analysis on the innermost scrutinee of the goal. *)
Ltac split_match :=
  match goal with
  | |- context [match ?x with _ => _ end] =>
      lazymatch x with
      | context [match _ with _ => _ end] => fail
      | _ => destruct x eqn:?
      end
  end.

Ltac cases := step; repeat (split_match; step).


(* ===================================================================== *)
(** ** close, and open after close *)
(* ===================================================================== *)

(** X1. [_close] on an adapter whose [_isOpen] flag is unset succeeds at
    once, no call made; with the flag set it calls [db.close] once and on
    success unsets the flag (the handle is then closed), while a failure of
    [db.close] is reported and leaves the flag set, so that the caller can
    try again. *)
Theorem close_idempotent (w : world) :
  (_isOpen w = false -> _close w = (Done tt, w)) /\
  (_isOpen w = true -> failing w db_close = None ->
     exists w', _close w = (Done tt, w') /\ _isOpen w' = false /\
                db_isOpen w' = false /\ issued w w' = [db_close] /\
                _close w' = (Done tt, w')) /\
  (forall e, _isOpen w = true -> failing w db_close = Some e ->
     exists w', _close w = (Failed e, w') /\ _isOpen w' = true /\
                issued w w' = [db_close] /\ db_isOpen w' = db_isOpen w /\
                _close w' = (Failed e, with_calls (calls w' ++ [db_close]) w')).
Proof.
  split; [|split].
  - intros H. unfold _close. step. by rewrite H.
  - intros H Hf. unfold _close, db_close_. step. rewrite H. cbn. rewrite Hf.
    eexists. split; [reflexivity|]. cbn. repeat split.
    apply issued_app. done.
  - intros e H Hf. unfold _close, db_close_. step. rewrite H. cbn. rewrite Hf.
    eexists. split; [reflexivity|]. cbn. rewrite H. cbn. rewrite Hf.
    repeat split. apply issued_app. done.
Qed.

Lemma close_idempotent_witness :
  (exists w', _close (fresh nothing_fails) = (Done tt, w') /\ _isOpen w' = false /\
              db_isOpen w' = false /\ issued (fresh nothing_fails) w' = [db_close] /\
              _close w' = (Done tt, w')) /\
  (exists w', _close (fresh (close_fails (Error "Failed")))
              = (Failed (Error "Failed"), w') /\ _isOpen w' = true) /\
  _close (with_isOpen false (fresh nothing_fails))
  = (Done tt, with_isOpen false (fresh nothing_fails)).
Proof.
  split; [|split].
  - apply (close_idempotent (fresh nothing_fails)); reflexivity.
  - destruct (proj2 (proj2 (close_idempotent (fresh (close_fails (Error "Failed")))))
                (Error "Failed") eq_refl eq_refl) as (w' & H1 & H2 & _).
    exists w'. split; assumption.
  - apply (close_idempotent (with_isOpen false (fresh nothing_fails))). reflexivity.
Defined.


(* ===================================================================== *)
(** ** What an operation leaves alone *)
(* ===================================================================== *)

Lemma sum_sizes_world root files : forall totalSize w r w',
  sum_sizes root files totalSize w = (r, w') ->
  exists l, w' = with_calls (calls w ++ l) w.
Proof.
  induction files as [|key files IH]; intros totalSize w r w'.
  - cbn. unfold ret. intros [= <- <-]. exists []. rewrite app_nil_r. by destruct w.
  - cbn [sum_sizes]. unfold fs_statSync_. step.
    destruct (_fs w !! Path.join root key) as [n|]; step.
    + intros H. apply IH in H as [l ->]. cbn.
      exists (fs_statSync (Path.join root key) :: l). fields. by rewrite <- app_assoc.
    + intros [= <- <-]. by exists [fs_statSync (Path.join root key)].
Qed.

(** [_size] reads: whatever it returns, only the history of calls grows. *)
Lemma size_world w key r w' :
  _size key w = (r, w') -> exists l, w' = with_calls (calls w ++ l) w.
Proof.
  unfold _size, db_approximateSize_, fs_readdir_. step.
  destruct (failing w (db_approximateSize SIZE_START_KEY SIZE_END_KEY)); step.
  { intros [= <- <-]. by eexists. }
  destruct (failing w (fs_readdir (_path w))); step.
  { intros [= <- <-]. eexists. by rewrite <- app_assoc. }
  match goal with
  | |- context [sum_sizes ?a ?b ?c ?d] => destruct (sum_sizes a b c d) as [r0 w0] eqn:Hs
  end.
  apply sum_sizes_world in Hs as [l ->]. cbn.
  destruct r0; intros [= <- <-]; eexists; fields; by rewrite <- !app_assoc.
Qed.

(** X2. The flag follows the handle: when [_isOpen] agrees with the status
    of the handle of the store, it does so after [_open] and after [_close],
    however they complete; and no other operation changes either of them. *)
Theorem flag_follows_handle (w : world) :
  _isOpen w = db_isOpen w ->
  (forall r w', _open w = (r, w') -> _isOpen w' = db_isOpen w') /\
  (forall r w', _close w = (r, w') -> _isOpen w' = db_isOpen w') /\
  (forall key r w', _peek key w = (r, w') ->
     _isOpen w' = _isOpen w /\ db_isOpen w' = db_isOpen w) /\
  (forall key r w', _get key w = (r, w') ->
     _isOpen w' = _isOpen w /\ db_isOpen w' = db_isOpen w) /\
  (forall key item r w', _put key item w = (r, w') ->
     _isOpen w' = _isOpen w /\ db_isOpen w' = db_isOpen w) /\
  (forall key r w', _del key w = (r, w') ->
     _isOpen w' = _isOpen w /\ db_isOpen w' = db_isOpen w) /\
  (forall key r w', _size key w = (r, w') ->
     _isOpen w' = _isOpen w /\ db_isOpen w' = db_isOpen w).
Proof.
  intros Hinv. split; [|split; [|split; [|split; [|split; [|split]]]]].
  - intros r w'. unfold _open, db_open_. cases; intros [= <- <-]; cbn; congruence.
  - intros r w'. unfold _close, db_close_. cases; intros [= <- <-]; cbn; congruence.
  - intros key r w'. unfold _peek, db_get_, parse_record. cases; by intros [= <- <-].
  - intros key r w'. unfold _get, db_get_, parse_record, fs_stat_, fs_createWriteStream_,
      fs_createReadStream_. cases; by intros [= <- <-].
  - intros key item r w'. unfold _put, db_put_. cases; by intros [= <- <-].
  - intros key r w'. unfold _del, del_entry_then_file, _peek, db_get_, parse_record,
      member, db_del_, path_join, fs_unlink_. cases; by intros [= <- <-].
  - intros key r w' [l ->]%size_world. done.
Qed.

Lemma flag_follows_handle_witness :
  _isOpen (snd (_open (with_isOpen false (with_db_isOpen false (fresh nothing_fails)))))
  = db_isOpen (snd (_open (with_isOpen false (with_db_isOpen false (fresh nothing_fails))))).
Proof.
  apply (proj1 (flag_follows_handle
                  (with_isOpen false (with_db_isOpen false (fresh nothing_fails))) eq_refl)
           (fst (_open (with_isOpen false (with_db_isOpen false (fresh nothing_fails)))))).
  apply surjective_pairing.
Defined.

(* ===================================================================== *)
(** ** Reading: peek and get *)
(* ===================================================================== *)

(** X3. When [db.get] reports an error, be it its own for a key the store
    does not hold or any other, [_peek] and [_get] hand that very error to
    the caller; the [db.get] is the only call made, so the file system is
    neither looked at nor changed. *)
Theorem read_error_is_reported (w : world) (key : string) (e : error) :
  failing w (db_get key false) = Some e \/
  (failing w (db_get key false) = None /\ _db w !! key = None /\ e = NotFoundError key) ->
  _peek key w = (Failed e, with_calls (calls w ++ [db_get key false]) w) /\
  _get key w = (Failed e, with_calls (calls w ++ [db_get key false]) w).
Proof.
  intros [Hf|(Hf & Hdb & ->)];
    unfold _peek, _get, db_get_; step; rewrite Hf; step; [done|].
  rewrite Hdb. done.
Qed.

Lemma read_error_is_reported_witness :
  _get "abc" (fresh nothing_fails)
  = (Failed (NotFoundError "abc"),
     with_calls (calls (fresh nothing_fails) ++ [db_get "abc" false]) (fresh nothing_fails)) /\
  _get "abc" (uploaded (get_fails (Error "Not found")))
  = (Failed (Error "Not found"),
     with_calls (calls (uploaded (get_fails (Error "Not found"))) ++ [db_get "abc" false])
       (uploaded (get_fails (Error "Not found")))).
Proof.
  split.
  - apply (read_error_is_reported (fresh nothing_fails) "abc"). right. done.
  - apply (read_error_is_reported (uploaded (get_fails (Error "Not found"))) "abc").
    left. reflexivity.
Defined.

(** X4. Up to its callback [_get] only reads: whatever its outcome, the
    store, the objects of the callers and the directory are as before.  The
    only streams it opens are on [path.join(_path, key)]: a read stream only
    for a path at which [fs.stat] found something, and a write stream, which
    will create the file or empty it once it opens, only when [fs.stat]
    reported an error, be it that nothing exists at the path or any other
    failure of the call.  It never unlinks. *)
Theorem get_reads_until_callback (w : world) (key : string)
    (r : completion object) (w' : world) :
  _get key w = (r, w') ->
  _db w' = _db w /\ heap w' = heap w /\ _path w' = _path w /\ _fs w' = _fs w /\
  (forall path, fs_createReadStream path ∈ issued w w' ->
     path = Path.join (_path w) key /\
     is_Some (_fs w !! path) /\ failing w (fs_stat path) = None) /\
  (forall path, fs_createWriteStream path ∈ issued w w' ->
     path = Path.join (_path w) key /\
     (_fs w !! path = None \/ is_Some (failing w (fs_stat path)))) /\
  (forall path, fs_unlink path ∉ issued w w').
Proof.
  unfold _get, db_get_, parse_record, fs_stat_, fs_createWriteStream_,
    fs_createReadStream_.
  cases; intros [= <- <-]; cbn;
    (split; [done|split; [done|split; [done|split; [done|]]]]);
    match goal with
    | |- context [issued w ?x] =>
        let H := fresh "Hi" in
        eassert (H : issued w x = _)
          by (apply issued_app; cbn; rewrite <- ?app_assoc; reflexivity);
        rewrite H; clear H
    end;
    (split; [|split]); intros path Hin; cbn [app] in Hin;
    rewrite ?elem_of_cons in Hin;
    repeat match goal with
           | H : _ \/ _ |- _ => destruct H
           | H : _ ∈ [] |- _ => by apply not_elem_of_nil in H
           | H : @eq call _ _ |- _ => first [discriminate H | injection H as ->]
           end;
    eauto.
Qed.

Lemma get_reads_until_callback_witness :
  _fs (snd (_get "abc" (uploaded (stat_fails (Error "EACCES")))))
  = _fs (uploaded (stat_fails (Error "EACCES"))) /\
  fs_createWriteStream "/data/abc"
    ∈ issued (uploaded (stat_fails (Error "EACCES")))
             (snd (_get "abc" (uploaded (stat_fails (Error "EACCES"))))) /\
  (_fs (uploaded (stat_fails (Error "EACCES"))) !! "/data/abc" = None \/
   is_Some (stat_fails (Error "EACCES") (fs_stat "/data/abc"))).
Proof.
  destruct (get_reads_until_callback (uploaded (stat_fails (Error "EACCES"))) "abc"
              _ _ (surjective_pairing _)) as (_ & _ & _ & H1 & _ & H2 & _).
  split; [exact H1|].
  assert (Hin : fs_createWriteStream "/data/abc"
                  ∈ issued (uploaded (stat_fails (Error "EACCES")))
                           (snd (_get "abc" (uploaded (stat_fails (Error "EACCES")))))).
  { vm_compute. apply list_elem_of_In. right. right. left. reflexivity. }
  split; [exact Hin|]. exact (proj2 (H2 _ Hin)).
Defined.

(** X5. For a key of the store [_get] delivers the record with a stream on
    [path.join(_path, key)] in place of its [shard], the other properties
    as stored, and the directory as it was: a read stream when [fs.stat]
    found something at the path, a write stream when it found nothing, and
    a write stream too when [fs.stat] failed for another reason, whatever
    exists at the path. *)
Theorem get_stream_follows_stat (w : world) (key value : string) (v : JSON.value)
    (o : object) :
  _db w !! key = Some value ->
  failing w (db_get key false) = None ->
  JSON_parse value = Some v ->
  to_object v = Some o ->
  let pathToFile := Path.join (_path w) key in
  exists result w',
    _get key w = (Done result, w') /\
    (forall name, name <> "shard" ->
       get_prop (properties result) name = get_prop (properties o) name) /\
    _fs w' = _fs w /\
    (failing w (fs_stat pathToFile) = None -> is_Some (_fs w !! pathToFile) ->
       get_prop (properties result) "shard" = Some (Stream (ReadStream pathToFile)) /\
       issued w w' = [db_get key false; fs_stat pathToFile;
                      fs_createReadStream pathToFile]) /\
    (failing w (fs_stat pathToFile) = None -> _fs w !! pathToFile = None ->
       get_prop (properties result) "shard" = Some (Stream (WriteStream pathToFile)) /\
       issued w w' = [db_get key false; fs_stat pathToFile;
                      fs_createWriteStream pathToFile]) /\
    (is_Some (failing w (fs_stat pathToFile)) ->
       get_prop (properties result) "shard" = Some (Stream (WriteStream pathToFile)) /\
       issued w w' = [db_get key false; fs_stat pathToFile;
                      fs_createWriteStream pathToFile]).
Proof.
  intros Hdb Hf Hv Ho pathToFile.
  pose proof (get_cases w key value v o Hdb Hf Hv Ho) as Hg. cbn zeta in Hg.
  fold pathToFile in Hg. rewrite Hg.
  destruct (failing w (fs_stat pathToFile)) as [e|] eqn:Hs;
    [|destruct (_fs w !! pathToFile) as [n|] eqn:Hfs]; do 2 eexists;
    (split; [reflexivity|]); rewrite !properties_assign;
    (split; [intros name Hn; by rewrite get_prop_set_prop_ne|]);
    (split; [reflexivity|]).
  - split; [done|]. split; [done|]. intros _. split; [apply get_prop_set_prop_eq|].
    apply issued_app. cbn. by rewrite <- !app_assoc.
  - split; [|split; [done|by intros [? ?]]]. intros _ _.
    split; [apply get_prop_set_prop_eq|].
    apply issued_app. cbn. by rewrite <- !app_assoc.
  - split; [by intros _ [? ?]|]. split; [|by intros [? ?]]. intros _ _.
    split; [apply get_prop_set_prop_eq|].
    apply issued_app. cbn. by rewrite <- !app_assoc.
Qed.

Lemma get_stream_follows_stat_witness :
  (exists result w',
     _get "abc" (uploaded nothing_fails) = (Done result, w') /\
     get_prop (properties result) "shard" = Some (Stream (ReadStream "/data/abc"))) /\
  (exists result w',
     _get "abc" (with_fs (_fs (fresh nothing_fails)) (uploaded nothing_fails))
     = (Done result, w') /\
     get_prop (properties result) "shard" = Some (Stream (WriteStream "/data/abc"))) /\
  (exists result w',
     _get "abc" (uploaded (stat_fails (Error "EACCES"))) = (Done result, w') /\
     get_prop (properties result) "shard" = Some (Stream (WriteStream "/data/abc"))).
Proof.
  split; [|split].
  - destruct (get_stream_follows_stat (uploaded nothing_fails)
                "abc" _ (VObj [("hash", VStr "abc"); ("shard", VNull); ("fskey", VStr "abc")])
                _ eq_refl eq_refl eq_refl eq_refl) as (result & w' & H1 & _ & _ & H2 & _).
    exists result, w'. split; [exact H1|]. apply H2; [reflexivity|]. vm_compute. eauto.
  - destruct (get_stream_follows_stat
                (with_fs (_fs (fresh nothing_fails)) (uploaded nothing_fails))
                "abc" _ (VObj [("hash", VStr "abc"); ("shard", VNull); ("fskey", VStr "abc")])
                _ eq_refl eq_refl eq_refl eq_refl) as (result & w' & H1 & _ & _ & _ & H2 & _).
    exists result, w'. split; [exact H1|]. apply H2; reflexivity.
  - destruct (get_stream_follows_stat (uploaded (stat_fails (Error "EACCES")))
                "abc" _ (VObj [("hash", VStr "abc"); ("shard", VNull); ("fskey", VStr "abc")])
                _ eq_refl eq_refl eq_refl eq_refl) as (result & w' & H1 & _ & _ & _ & _ & H2).
    exists result, w'. split; [exact H1|]. apply H2. vm_compute. eauto.
Defined.

(* ===================================================================== *)
(** ** Writing: put *)
(* ===================================================================== *)

(** X6. [_put] writes one entry and nothing else: the directory is as
    before, the entries of the other keys are as before, and the only call
    made is one [db.put] for the key, with [sync] set.  When that [db.put]
    fails, [_put] fails with its error and the store is as before. *)
Theorem put_touches_only_its_entry (w : world) (key : string) (item : loc)
    (o : object) (r : completion unit) (w' : world) :
  heap w !! item = Some o ->
  _put key item w = (r, w') ->
  _fs w' = _fs w /\ _path w' = _path w /\
  (forall k, k <> key -> _db w' !! k = _db w !! k) /\
  (issued w w' = [] \/ exists value, issued w w' = [db_put key value true]) /\
  (forall value e, db_put key value true ∈ issued w w' ->
     failing w (db_put key value true) = Some e ->
     r = Failed e /\ _db w' = _db w).
Proof.
  intros Ho Hput. pose proof (put_cases w key item o Ho) as Hc. cbn zeta in Hc.
  destruct (JSON_stringify _) as [v|].
  - assert (Hi : issued w w' = [db_put key v true]).
    { destruct (failing w (db_put key v true)); rewrite Hc in Hput;
        injection Hput as _ <-; by apply issued_app. }
    rewrite Hi. destruct (failing w (db_put key v true)) as [e|] eqn:Hf;
      rewrite Hc in Hput; injection Hput as <- <-; cbn;
      (split; [done|split; [done|split; [|split; [eauto|]]]]).
    + done.
    + intros value e' [= <-]%list_elem_of_singleton. rewrite Hf. by intros [= <-].
    + intros k Hk. by rewrite lookup_insert_ne.
    + intros value e' [= <-]%list_elem_of_singleton. rewrite Hf. done.
  - destruct Hc as [e Hc]. rewrite Hc in Hput. injection Hput as <- <-.
    assert (Hi : issued w (with_heap
                (<[item := assign (assign o "shard" (Json VNull)) "fskey" (Json (VStr key))]>
                   (heap w)) w) = []).
    { apply issued_app. cbn. by rewrite app_nil_r. }
    rewrite Hi. cbn. split; [done|split; [done|split; [done|split; [by left|]]]].
    intros value e' Hin. by apply not_elem_of_nil in Hin.
Qed.

Lemma put_touches_only_its_entry_witness :
  fst (_put "abc" 1%nat (uploaded (put_fails "abc" (Error "Failed"))))
  = Failed (Error "Failed") /\
  _db (snd (_put "abc" 1%nat (uploaded (put_fails "abc" (Error "Failed")))))
  = _db (uploaded (put_fails "abc" (Error "Failed"))).
Proof.
  destruct (put_touches_only_its_entry (uploaded (put_fails "abc" (Error "Failed")))
              "abc" 1%nat (Plain [("hash", Json (VStr "abc")); ("shard", Buffer "test")])
              _ _ eq_refl (surjective_pairing _)) as (_ & _ & _ & _ & H).
  apply (H (text "{'hash':'abc','shard':null,'fskey':'abc'}") (Error "Failed")).
  - vm_compute. apply list_elem_of_here.
  - reflexivity.
Defined.

Lemma get_prop_map_Json (vs : list (string * value)) (name : string) :
  get_prop (map (fun kv => (fst kv, Json (snd kv))) vs) name = Json <$> get_prop vs name.
Proof.
  induction vs as [|[k v] vs IH]; [done|]. cbn.
  destruct (String.eqb k name); [done|]. exact IH.
Qed.

(** X7. [_put] followed by [_get] of the same key, for a valid item:
    [_get] succeeds, and the item it delivers has the metadata of the item
    that was put, [fskey] set to the key, and as its [shard] a stream on
    [path.join(_path, key)], for reading when the file exists and for
    writing when it does not (or when [fs.stat] fails for another
    reason). *)
Theorem put_then_get (w : world) (key : string) (item : loc) (o : object) :
  heap w !! item = Some o ->
  valid_item o = true ->
  (forall value, failing w (db_put key value true) = None) ->
  failing w (db_get key false) = None ->
  let pathToFile := Path.join (_path w) key in
  exists result w',
    (_put key item ;; _get key) w = (Done result, w') /\
    get_prop (properties result) "fskey" = Some (Json (VStr key)) /\
    get_prop (properties result) "shard"
    = Some (Stream (match failing w (fs_stat pathToFile), _fs w !! pathToFile with
                    | None, Some _ => ReadStream pathToFile
                    | _, _ => WriteStream pathToFile
                    end)) /\
    forall name, name <> "shard" -> name <> "fskey" ->
      get_prop (properties result) name
      = Json <$> (get_prop (properties o) name ≫= slot_value).
Proof.
  intros Ho Hvalid Hput Hget pathToFile. destruct o as [props|]; [|done].
  destruct (valid_item_serialised props key Hvalid) as (vs & Hs & Hp & Hprops).
  pose proof (put_cases w key item (Plain props) Ho) as Hc. cbn zeta in Hc.
  rewrite Hs, Hput in Hc.
  match type of Hc with _ = (_, ?x) => set (w1 := x) in * end.
  assert (Hdb : _db w1 !! key = Some (stringify (VObj vs))).
  { unfold w1. fields. apply lookup_insert_eq. }
  pose proof (get_cases w1 key _ (VObj vs) _ Hdb Hget Hp eq_refl) as Hg.
  cbn zeta in Hg. change (_path w1) with (_path w) in Hg.
  change (_fs w1) with (_fs w) in Hg. change (failing w1) with (failing w) in Hg.
  fold pathToFile in Hg.
  assert (Hother : forall s name, name <> "shard" -> name <> "fskey" ->
            get_prop (properties (assign (Plain (map (fun kv => (fst kv, Json (snd kv))) vs))
                                    "shard" (Stream s))) name
            = Json <$> (get_prop props name ≫= slot_value)).
  { intros s name H1 H2. rewrite properties_assign. cbn [properties].
    rewrite get_prop_set_prop_ne by done. rewrite get_prop_map_Json, Hprops.
    by rewrite !get_prop_set_prop_ne. }
  assert (Hfskey : forall s,
            get_prop (properties (assign (Plain (map (fun kv => (fst kv, Json (snd kv))) vs))
                                    "shard" (Stream s))) "fskey"
            = Some (Json (VStr key))).
  { intros s. rewrite properties_assign. cbn [properties].
    rewrite get_prop_set_prop_ne by done. rewrite get_prop_map_Json, Hprops.
    by rewrite get_prop_set_prop_eq. }
  destruct (failing w (fs_stat pathToFile)) as [e|];
    [|destruct (_fs w !! pathToFile) as [n|]]; do 2 eexists;
    (split; [unfold bind at 1; rewrite Hc; exact Hg|]);
    (split; [apply Hfskey|]);
    (split; [rewrite properties_assign; apply get_prop_set_prop_eq|apply Hother]).
Qed.

Lemma put_then_get_witness :
  exists result w',
    (_put "abc" 1%nat ;; _get "abc") (fresh nothing_fails) = (Done result, w') /\
    get_prop (properties result) "fskey" = Some (Json (VStr "abc")) /\
    get_prop (properties result) "shard" = Some (Stream (WriteStream "/data/abc")) /\
    get_prop (properties result) "hash" = Some (Json (VStr "abc")).
Proof.
  destruct (put_then_get (fresh nothing_fails) "abc" 1%nat
              (Plain [("hash", Json (VStr "abc")); ("shard", Buffer "test")])
              eq_refl eq_refl (fun _ => eq_refl) eq_refl)
    as (result & w' & H1 & H2 & H3 & H4).
  exists result, w'. split; [exact H1|]. split; [exact H2|]. split; [exact H3|].
  rewrite H4 by discriminate. reflexivity.
Defined.

(** X8. The last [_put] wins: after two valid items were put under one key,
    [_peek] delivers the metadata of the second, with [shard: null] and
    [fskey] set to the key. *)
Theorem put_overwrites (w : world) (key : string) (item1 item2 : loc)
    (o1 o2 : object) :
  item1 <> item2 ->
  heap w !! item1 = Some o1 -> heap w !! item2 = Some o2 ->
  valid_item o1 = true -> valid_item o2 = true ->
  (forall value, failing w (db_put key value true) = None) ->
  failing w (db_get key false) = None ->
  exists props w',
    (_put key item1 ;; _put key item2 ;; _peek key) w = (Done (VObj props), w') /\
    get_prop props "shard" = Some VNull /\
    get_prop props "fskey" = Some (VStr key) /\
    forall name, name <> "shard" -> name <> "fskey" ->
      get_prop props name = get_prop (properties o2) name ≫= slot_value.
Proof.
  intros Hne H1 H2 Hv1 Hv2 Hput Hget.
  destruct o1 as [props1|]; [|done]. destruct o2 as [props2|]; [|done].
  destruct (valid_item_serialised props1 key Hv1) as (vs1 & Hs1 & _ & _).
  destruct (valid_item_serialised props2 key Hv2) as (vs2 & Hs2 & Hp2 & Hprops).
  pose proof (put_cases w key item1 (Plain props1) H1) as Hc1. cbn zeta in Hc1.
  rewrite Hs1, Hput in Hc1.
  match type of Hc1 with _ = (_, ?x) => set (w1 := x) in * end.
  assert (H2' : heap w1 !! item2 = Some (Plain props2)).
  { unfold w1. fields. by rewrite lookup_insert_ne. }
  pose proof (put_cases w1 key item2 (Plain props2) H2') as Hc2. cbn zeta in Hc2.
  rewrite Hs2 in Hc2. change (failing w1) with (failing w) in Hc2. rewrite Hput in Hc2.
  match type of Hc2 with _ = (_, ?x) => set (w2 := x) in * end.
  exists vs2. eexists. split; [|split; [|split]].
  - unfold bind at 1. rewrite Hc1. unfold bind at 1. rewrite Hc2.
    apply (peek_cases _ key (stringify (VObj vs2))); [|done|done].
    unfold w2. fields. apply lookup_insert_eq.
  - rewrite Hprops. rewrite get_prop_set_prop_ne by done.
    by rewrite get_prop_set_prop_eq.
  - rewrite Hprops. by rewrite get_prop_set_prop_eq.
  - intros name Hn1 Hn2. rewrite Hprops. by rewrite !get_prop_set_prop_ne.
Qed.

Lemma put_overwrites_witness :
  exists props w',
    (_put "abc" 1%nat ;; _put "abc" 2%nat ;; _peek "abc")
      (with_heap (<[2%nat := Plain [("hash", Json (VStr "other"))]]>
                    (heap (fresh nothing_fails))) (fresh nothing_fails))
    = (Done (VObj props), w') /\
    get_prop props "hash" = Some (VStr "other").
Proof.
  destruct (put_overwrites
              (with_heap (<[2%nat := Plain [("hash", Json (VStr "other"))]]>
                            (heap (fresh nothing_fails))) (fresh nothing_fails))
              "abc" 1%nat 2%nat
              (Plain [("hash", Json (VStr "abc")); ("shard", Buffer "test")])
              (Plain [("hash", Json (VStr "other"))])
              ltac:(discriminate) eq_refl eq_refl eq_refl eq_refl
              (fun _ => eq_refl) eq_refl)
    as (props & w' & H1 & _ & _ & H4).
  exists props, w'. split; [exact H1|]. rewrite H4 by discriminate. reflexivity.
Defined.

Lemma set_prop_set_prop {A : Type} (o : list (string * A)) name x y :
  set_prop (set_prop o name x) name y = set_prop o name y.
Proof.
  induction o as [|[k v] o IH]; cbn.
  - by rewrite String.eqb_refl.
  - destruct (String.eqb k name) eqn:E; cbn; rewrite E; [done|]. by rewrite IH.
Qed.

Lemma set_prop_same {A : Type} (o : list (string * A)) name x :
  get_prop o name = Some x -> set_prop o name x = o.
Proof.
  induction o as [|[k v] o IH]; cbn; [done|].
  destruct (String.eqb k name); [by intros [= ->]|].
  intros H. by rewrite IH.
Qed.

Lemma props_value_map_Json (vs : list (string * value)) :
  props_value (map (fun kv => (fst kv, Json (snd kv))) vs) = Some vs.
Proof. induction vs as [|[k v] vs IH]; [done|]. cbn. by rewrite IH. Qed.

(** What [_put] hands to the store for an item that [_get] delivered from a
    record as [_put] writes it: the text of that record. *)
Lemma got_item_serialised (vs : list (string * value)) (key : string) (s : stream) :
  get_prop vs "shard" = Some VNull ->
  get_prop vs "fskey" = Some (VStr key) ->
  JSON_stringify
    (assign (assign (assign (Plain (map (fun kv => (fst kv, Json (snd kv))) vs))
                       "shard" (Stream s))
               "shard" (Json VNull))
       "fskey" (Json (VStr key)))
  = Some (stringify (VObj vs)).
Proof.
  intros Hshard Hfskey. unfold assign, JSON_stringify.
  rewrite set_prop_set_prop.
  rewrite (set_prop_same _ "shard") by (by rewrite get_prop_map_Json, Hshard).
  rewrite (set_prop_same _ "fskey") by (by rewrite get_prop_map_Json, Hfskey).
  by rewrite props_value_map_Json.
Qed.

(** X9. Putting back what [_get] delivered changes nothing in the store:
    for a record as [_put] writes it ([shard: null], [fskey] the key), the
    item [_get] delivers, stream and all, is serialised by [_put] to the
    text the store already holds. *)
Theorem get_then_put_keeps_record (w : world) (key : string)
    (vs : list (string * value)) (l : loc) :
  _db w !! key = Some (stringify (VObj vs)) ->
  distinct_keys (VObj vs) = true ->
  get_prop vs "shard" = Some VNull ->
  get_prop vs "fskey" = Some (VStr key) ->
  failing w (db_get key false) = None ->
  (forall value, failing w (db_put key value true) = None) ->
  exists w',
    (result <- _get key ;; hold l result ;; _put key l) w = (Done tt, w') /\
    _db w' = _db w /\
    last (issued w w') = Some (db_put key (stringify (VObj vs)) true).
Proof.
  intros Hdb Hd Hshard Hfskey Hget Hput.
  pose proof (parse_stringify (VObj vs) Hd) as Hp.
  pose proof (get_cases w key _ (VObj vs) _ Hdb Hget Hp eq_refl) as Hg.
  cbn zeta in Hg. unfold bind at 1. rewrite Hg.
  destruct (failing w (fs_stat (Path.join (_path w) key))) as [e|];
    [|destruct (_fs w !! Path.join (_path w) key) as [n|]];
    unfold bind at 1, hold; cbn beta iota;
    match goal with
    | |- context [_put key l ?x] =>
        pose proof (put_cases x key l _ (lookup_insert_eq _ _ _)) as Hc
    end;
    cbn zeta in Hc; rewrite got_item_serialised in Hc by done;
    cbn [failing with_heap with_fs with_calls] in Hc; rewrite Hput in Hc;
    unfold bind; rewrite Hc; eexists; (split; [reflexivity|]);
    (split; [cbn; by apply insert_id|]);
    unfold issued; cbn; rewrite <- !app_assoc, drop_app_length; reflexivity.
Qed.

Lemma get_then_put_keeps_record_witness :
  exists w',
    (result <- _get "abc" ;; hold 7%nat result ;; _put "abc" 7%nat) (uploaded nothing_fails)
    = (Done tt, w') /\
    _db w' = _db (uploaded nothing_fails).
Proof.
  destruct (get_then_put_keeps_record (uploaded nothing_fails) "abc"
              [("hash", VStr "abc"); ("shard", VNull); ("fskey", VStr "abc")] 7%nat
              eq_refl eq_refl eq_refl eq_refl eq_refl (fun _ => eq_refl))
    as (w' & H1 & H2 & _).
  exists w'. split; assumption.
Defined.

(* ===================================================================== *)
(** ** Removing: del *)
(* ===================================================================== *)

(** [_del] for a key whose record parses to an object: the name of the file
    is the [fskey] of the record when that is truthy, the key otherwise. *)
Lemma del_cases (w : world) (key value : string) (props : list (string * JSON.value)) :
  _db w !! key = Some value ->
  failing w (db_get key false) = None ->
  JSON_parse value = Some (VObj props) ->
  _del key w
  = del_entry_then_file key
      (match get_prop props "fskey" with
       | Some v => if truthy (get_prop props "fskey") then v else VStr key
       | None => VStr key
       end)
      (with_calls (calls w ++ [db_get key false]) w).
Proof.
  intros Hdb Hf Hv. unfold _del.
  rewrite (peek_cases w key value (VObj props) Hdb Hf Hv).
  unfold bind, member, ret. reflexivity.
Qed.

(** X10. [_del] of a key whose record names its file ([fskey], as [_put]
    writes it), with the file in place and no call failing: it succeeds, the
    entry is gone from the store and the file from the directory, nothing
    else has changed, and [_peek] of the key now reports that it is not
    found. *)
Theorem del_removes_record_and_file (w : world) (key value f data : string)
    (props : list (string * JSON.value)) :
  _db w !! key = Some value ->
  JSON_parse value = Some (VObj props) ->
  get_prop props "fskey" = Some (VStr f) -> f <> EmptyString ->
  _fs w !! Path.join (_path w) f = Some (File data) ->
  failing w (db_get key false) = None ->
  failing w (db_del key) = None ->
  failing w (fs_unlink (Path.join (_path w) f)) = None ->
  exists w',
    _del key w = (Done tt, w') /\
    _db w' = delete key (_db w) /\
    _fs w' = delete (Path.join (_path w) f) (_fs w) /\
    heap w' = heap w /\
    issued w w' = [db_get key false; db_del key; fs_unlink (Path.join (_path w) f)] /\
    fst (_peek key w') = Failed (NotFoundError key).
Proof.
  intros Hdb Hv Hfskey Hne Hfs Hget Hdel Hunlink.
  rewrite (del_cases w key value props Hdb Hget Hv), Hfskey.
  replace (truthy (Some (VStr f))) with true by (by destruct f).
  rewrite del_entry_succeeds by done. unfold fs_unlink_. step.
  rewrite Hunlink. step. rewrite Hfs. step.
  eexists. split; [reflexivity|]. cbn. split; [done|]. split; [done|]. split; [done|].
  split; [apply issued_app; cbn; by rewrite <- !app_assoc|].
  unfold _peek, db_get_. step. rewrite Hget. step. by rewrite lookup_delete_eq.
Qed.

Lemma del_removes_record_and_file_witness :
  exists w',
    _del "abc" (uploaded nothing_fails) = (Done tt, w') /\
    _db w' !! "abc" = None /\ _fs w' !! "/data/abc" = None.
Proof.
  destruct (del_removes_record_and_file (uploaded nothing_fails) "abc" _ "abc" "hello"
              [("hash", VStr "abc"); ("shard", VNull); ("fskey", VStr "abc")]
              eq_refl eq_refl eq_refl ltac:(discriminate) eq_refl eq_refl eq_refl eq_refl)
    as (w' & H1 & H2 & H3 & _).
  exists w'. split; [exact H1|]. rewrite H2, H3. split; reflexivity.
Defined.

(** X11. When the [fs.unlink] of [_del] fails, because it is made to or
    because there is no such file, [_del] fails with that error although
    the entry is already gone from the store; the directory is as before. *)
Theorem del_unlink_failure_after_entry_deleted (w : world) (key value f : string)
    (props : list (string * JSON.value)) (e : error) :
  _db w !! key = Some value ->
  JSON_parse value = Some (VObj props) ->
  get_prop props "fskey" = Some (VStr f) -> f <> EmptyString ->
  failing w (db_get key false) = None ->
  failing w (db_del key) = None ->
  failing w (fs_unlink (Path.join (_path w) f)) = Some e \/
  (failing w (fs_unlink (Path.join (_path w) f)) = None /\
   _fs w !! Path.join (_path w) f = None /\ e = ENOENT (Path.join (_path w) f)) ->
  exists w',
    _del key w = (Failed e, w') /\
    _db w' = delete key (_db w) /\ _db w' !! key = None /\
    _fs w' = _fs w /\
    issued w w' = [db_get key false; db_del key; fs_unlink (Path.join (_path w) f)].
Proof.
  intros Hdb Hv Hfskey Hne Hget Hdel Hunlink.
  rewrite (del_cases w key value props Hdb Hget Hv), Hfskey.
  replace (truthy (Some (VStr f))) with true by (by destruct f).
  rewrite del_entry_succeeds by done. unfold fs_unlink_. step.
  destruct Hunlink as [Hu|(Hu & Hfs & ->)]; rewrite Hu; step; [|rewrite Hfs; step];
    (eexists; split; [reflexivity|]; cbn; split; [done|];
     split; [apply lookup_delete_eq|]; split; [done|];
     apply issued_app; cbn; by rewrite <- !app_assoc).
Qed.

Lemma del_unlink_failure_after_entry_deleted_witness :
  (exists w',
     _del "abc" (uploaded (unlink_fails (Error "Failed to delete")))
     = (Failed (Error "Failed to delete"), w') /\
     _db w' !! "abc" = None /\
     _fs w' = _fs (uploaded (unlink_fails (Error "Failed to delete")))) /\
  (exists w',
     _del "abc" (with_fs (_fs (fresh nothing_fails)) (uploaded nothing_fails))
     = (Failed (ENOENT "/data/abc"), w') /\ _db w' !! "abc" = None).
Proof.
  split.
  - destruct (del_unlink_failure_after_entry_deleted
                (uploaded (unlink_fails (Error "Failed to delete"))) "abc" _ "abc"
                [("hash", VStr "abc"); ("shard", VNull); ("fskey", VStr "abc")]
                (Error "Failed to delete")
                eq_refl eq_refl eq_refl ltac:(discriminate) eq_refl eq_refl
                (or_introl eq_refl)) as (w' & H1 & _ & H2 & H3 & _).
    exists w'. repeat split; assumption.
  - destruct (del_unlink_failure_after_entry_deleted
                (with_fs (_fs (fresh nothing_fails)) (uploaded nothing_fails)) "abc" _ "abc"
                [("hash", VStr "abc"); ("shard", VNull); ("fskey", VStr "abc")]
                (ENOENT "/data/abc")
                eq_refl eq_refl eq_refl ltac:(discriminate) eq_refl eq_refl
                (or_intror (conj eq_refl (conj eq_refl eq_refl))))
      as (w' & H1 & _ & H2 & _).
    exists w'. split; assumption.
Defined.



(** X13. A record whose [fskey] is truthy but not a string (a number, an
    object) breaks [_del] half way: the entry is deleted from the store,
    then [path.join] throws, and no [fs.unlink] is made. *)
Theorem del_breaks_on_fskey_not_a_string (w : world) (key value : string)
    (props : list (string * JSON.value)) (v : JSON.value) :
  _db w !! key = Some value ->
  JSON_parse value = Some (VObj props) ->
  get_prop props "fskey" = Some v ->
  truthy (Some v) = true ->
  (forall f, v <> VStr f) ->
  failing w (db_get key false) = None ->
  failing w (db_del key) = None ->
  exists e w',
    _del key w = (Thrown e, w') /\
    _db w' = delete key (_db w) /\ _fs w' = _fs w /\
    issued w w' = [db_get key false; db_del key].
Proof.
  intros Hdb Hv Hfskey Htruthy Hnot Hget Hdel.
  rewrite (del_cases w key value props Hdb Hget Hv), Hfskey, Htruthy.
  unfold del_entry_then_file, db_del_, path_join. step. rewrite Hdel. step.
  destruct v as [| b | n | s | elems | ps]; [| | |by destruct (Hnot s)| |]; step;
    (do 2 eexists; split; [reflexivity|]; cbn; split; [done|]; split; [done|];
     apply issued_app; cbn; by rewrite <- !app_assoc).
Qed.

Lemma del_breaks_on_fskey_not_a_string_witness :
  exists e w',
    _del "abc" (holding (text "{'hash':'abc','fskey':5}")) = (Thrown e, w') /\
    _db w' !! "abc" = None /\ is_Some (_fs w' !! "/data/abc").
Proof.
  destruct (del_breaks_on_fskey_not_a_string
              (holding (text "{'hash':'abc','fskey':5}")) "abc" (text "{'hash':'abc','fskey':5}")
              [("hash", VStr "abc"); ("fskey", VNum 5)] (VNum 5)
              eq_refl eq_refl eq_refl eq_refl ltac:(discriminate) eq_refl eq_refl)
    as (e & w' & H1 & H2 & H3 & _).
  exists e, w'. split; [exact H1|]. rewrite H2, H3. split; [reflexivity|].
  vm_compute. eauto.
Defined.



(** X15. [_del] touches one entry and at most one file, in this order:
    the entries of the other keys and the objects of the callers are as
    before, and a file is removed only when [_del] succeeds, after the entry
    of the key was deleted; in every other outcome the directory is as
    before. *)
Theorem del_removes_file_only_after_entry (w : world) (key : string)
    (r : completion unit) (w' : world) :
  _del key w = (r, w') ->
  heap w' = heap w /\
  (forall k, k <> key -> _db w' !! k = _db w !! k) /\
  (_db w' = _db w \/ _db w' = delete key (_db w)) /\
  (_fs w' = _fs w \/
   exists path, r = Done tt /\ _db w' = delete key (_db w) /\
                _fs w' = delete path (_fs w) /\ fs_unlink path ∈ issued w w').
Proof.
  unfold _del, del_entry_then_file, _peek, db_get_, parse_record, member, db_del_,
    path_join, fs_unlink_.
  cases; intros [= <- <-]; cbn;
    (split; [done|]);
    (split; [first [done | by intros k Hk; rewrite lookup_delete_ne]|]);
    (split; [first [by left | by right]|]);
    first [by left | right; eexists; split; [done|]; split; [done|]; split; [done|];
                     unfold issued; cbn; rewrite <- !app_assoc, drop_app_length;
                     do 2 apply list_elem_of_further; apply list_elem_of_here].
Qed.

Lemma del_removes_file_only_after_entry_witness :
  _fs (snd (_del "abc" (uploaded (del_fails "abc" (Error "Failed to delete")))))
  = _fs (uploaded (del_fails "abc" (Error "Failed to delete"))).
Proof.
  destruct (del_removes_file_only_after_entry
              (uploaded (del_fails "abc" (Error "Failed to delete"))) "abc" _ _
              (surjective_pairing _)) as (_ & _ & _ & [H|(path & H & _)]).
  - exact H.
  - discriminate H.
Defined.

(* ===================================================================== *)
(** ** size *)
(* ===================================================================== *)

(** X16. The ways [_size] fails: an error of the estimate is handed to the
    caller before the directory is read; an error of [fs.readdir] is handed
    to the caller before any file is looked at.  Whatever the outcome,
    [_size] changes nothing but the history of calls. *)
Theorem size_outcomes (w : world) (key : option string) :
  (forall e, failing w (db_approximateSize SIZE_START_KEY SIZE_END_KEY) = Some e ->
     _size key w
     = (Failed e,
        with_calls (calls w ++ [db_approximateSize SIZE_START_KEY SIZE_END_KEY]) w)) /\
  (forall e, failing w (db_approximateSize SIZE_START_KEY SIZE_END_KEY) = None ->
     failing w (fs_readdir (_path w)) = Some e ->
     _size key w
     = (Failed e,
        with_calls (calls w ++ [db_approximateSize SIZE_START_KEY SIZE_END_KEY;
                                fs_readdir (_path w)]) w)) /\
  (forall r w', _size key w = (r, w') ->
     exists l, w' = with_calls (calls w ++ l) w).
Proof.
  split; [|split].
  - intros e Ha. unfold _size, db_approximateSize_. step. by rewrite Ha.
  - intros e Ha Hr. unfold _size, db_approximateSize_, fs_readdir_. step.
    rewrite Ha. step. rewrite Hr. by rewrite <- app_assoc.
  - intros r w' Hs. by eapply size_world.
Qed.

Lemma size_outcomes_witness :
  fst (_size None (uploaded (approximateSize_fails (Error "Failed"))))
  = Failed (Error "Failed") /\
  fst (_size None (uploaded (readdir_fails (Error "EACCES")))) = Failed (Error "EACCES").
Proof.
  split.
  - rewrite (proj1 (size_outcomes (uploaded (approximateSize_fails (Error "Failed"))) None)
               (Error "Failed") eq_refl). reflexivity.
  - rewrite (proj1 (proj2 (size_outcomes (uploaded (readdir_fails (Error "EACCES"))) None))
               (Error "EACCES") eq_refl eq_refl). reflexivity.
Defined.

Lemma bytes_Permutation (l l' : list (string * node)) :
  l ≡ₚ l' -> bytes l = bytes l'.
Proof.
  induction 1 as [|[name n] l l' _ IH|[name n] [name' n'] l|l1 l2 l3 _ IH1 _ IH2].
  - done.
  - rewrite !bytes_cons. by rewrite IH.
  - rewrite !bytes_cons. lia.
  - congruence.
Qed.

Lemma entry_name_of_join (dir name : string) :
  name <> EmptyString -> Path.has_separator name = false ->
  Path.entry_name dir (Path.join dir name) = Some name.
Proof.
  intros Hne Hsep. unfold Path.entry_name, Path.join.
  rewrite <- string_app_assoc, expect_app, Hsep. by destruct name.
Qed.

(** Removing a file from the directory takes its entry off the listing. *)
Lemma listed_delete (w : world) (path name : string) (n : node) :
  _fs w !! path = Some n ->
  Path.entry_name (_path w) path = Some name ->
  bytes (listed w)
  = (node_size n + bytes (listed (with_fs (delete path (_fs w)) w)))%Z.
Proof.
  intros Hfs Hname.
  rewrite <- (bytes_cons name n). apply bytes_Permutation.
  unfold listed. fields.
  rewrite <- (map_to_list_delete (_fs w) path n Hfs). cbn. by rewrite Hname.
Qed.

(** X17. A successful [_del] takes the bytes of the shard off what [_size]
    reports: with the file of the key a plain entry of the directory, the
    first result of [_size] after [_del] is the one before, less the size of
    the file. *)
Theorem del_frees_shard_bytes (w : world) (key value f data : string)
    (props : list (string * JSON.value)) (size_key : option string) :
  _db w !! key = Some value ->
  JSON_parse value = Some (VObj props) ->
  get_prop props "fskey" = Some (VStr f) ->
  f <> EmptyString -> Path.has_separator f = false ->
  _fs w !! Path.join (_path w) f = Some (File data) ->
  (forall c, failing w c = None) ->
  exists w1 before after contractDbSize contractDbSize' w2 w3,
    _size size_key w = (Done (before, contractDbSize), w2) /\
    _del key w = (Done tt, w1) /\
    _size size_key w1 = (Done (after, contractDbSize'), w3) /\
    after = (before - Z.of_nat (String.length data))%Z.
Proof.
  intros Hdb Hv Hfskey Hne Hsep Hfs Hnone.
  rewrite (del_cases w key value props Hdb (Hnone _) Hv), Hfskey.
  replace (truthy (Some (VStr f))) with true by (by destruct f).
  rewrite del_entry_succeeds by apply Hnone. unfold fs_unlink_. step.
  rewrite Hnone. step. rewrite Hfs. step.
  rewrite (size_cases w size_key (Hnone _) (Hnone _)).
  do 7 eexists. split; [reflexivity|]. split; [reflexivity|].
  split; [apply size_cases; apply Hnone|].
  rewrite (listed_delete w (Path.join (_path w) f) f (File data) Hfs)
    by (by apply entry_name_of_join).
  change (node_size (File data)) with (Z.of_nat (String.length data)).
  match goal with
  | |- bytes (listed ?x) = _ =>
      change (listed x) with (listed (with_fs (delete (Path.join (_path w) f) (_fs w)) w))
  end.
  lia.
Qed.

Lemma del_frees_shard_bytes_witness :
  exists w1 before after contractDbSize contractDbSize' w2 w3,
    _size None (uploaded nothing_fails) = (Done (before, contractDbSize), w2) /\
    _del "abc" (uploaded nothing_fails) = (Done tt, w1) /\
    _size None w1 = (Done (after, contractDbSize'), w3) /\
    after = (before - 5)%Z.
Proof.
  apply (del_frees_shard_bytes (uploaded nothing_fails) "abc" _ "abc" "hello"
           [("hash", VStr "abc"); ("shard", VNull); ("fskey", VStr "abc")] None
           eq_refl eq_refl eq_refl ltac:(discriminate) eq_refl eq_refl (fun _ => eq_refl)).
Defined.


